(** * Fisher acceptance regions and two-sample chi-square: a shallow embedding

    The development follows the two Python modules of the repository:
    - [fisher.py]: [fisher_accept] and [fisher_accept2], the greedy
      construction of a randomized acceptance region for a hypergeometric
      test;
    - [chisq.py]: [chisq_1], [chisq_2] and [chisq_3], three ways of
      computing one chi-square statistic of two samples.

    Python floats are abstracted by the class [PyFloat], with two instances:
    exact rationals ([Q], the arithmetic the formulas are meant in) and
    IEEE binary64 (the kernel's primitive floats, the arithmetic the
    interpreter runs). *)

From Stdlib Require Import ZArith QArith Lqa List Bool Lia Permutation Sorted.
From Stdlib Require Import Floats.
Import ListNotations.

Set Warnings "-inexact-float".
Open Scope Z_scope.

(** ** Python exceptions and fallible computations *)

(** The first four exceptions are the ones the source can raise.  The last
    three are the error classes the specification names; no statement of the
    source raises them. *)
Inductive exn : Set :=
| AssertionError
| IndexError
| ValueError
| ZeroDivisionError
| DomainError
| ConstructionError
| NumericError.

Inductive py (A : Type) : Type :=
| Raise (e : exn)
| Return (a : A).

Arguments Raise {A} e.
Arguments Return {A} a.

Definition bind {A B : Type} (m : py A) (k : A -> py B) : py B :=
  match m with
  | Raise e => Raise e
  | Return a => k a
  end.

Notation "x <- m ;; k" := (bind m (fun x => k))
  (at level 61, m at next level, right associativity).

(** ** The arithmetic of Python floats *)

Class PyFloat (F : Type) : Type := {
  of_int : Z -> F;            (* float(i), and the promotion of an int operand *)
  add : F -> F -> F;
  sub : F -> F -> F;
  mul : F -> F -> F;
  div : F -> F -> F;          (* numpy's division: no exception on a zero divisor *)
  ltb : F -> F -> bool;       (* x < y *)
  eqb : F -> F -> bool        (* x == y *)
}.

(** The facts about comparison and addition that the proofs below rely on.
    They hold in exact arithmetic and in IEEE arithmetic, NaN included. *)
Class PyFloatOrder (F : Type) {PF : PyFloat F} : Prop := {
  ltb_asym : forall x y, ltb x y = true -> ltb y x = false;
  ltb_trans : forall x y z, ltb x y = true -> ltb y z = true -> ltb x z = true;
  eqb_not_ltb : forall x y, eqb x y = true -> ltb x y = false /\ ltb y x = false;
  ltb_add_zero : forall x a p,
      ltb x a = true -> eqb p (of_int 0) = true -> ltb (add x p) a = true
}.

(** *** Exact rationals *)

(** The arithmetic without rounding.  [Qdiv] gives [x / 0 = 0] where numpy
    gives an infinity or a NaN; the builder divides by a mass that is shown
    not to be zero, and [chisq_2] only ever divides [0] by [0], a NaN that
    [np.nansum] counts as nothing. *)

Definition Qltb (x y : Q) : bool :=
  match Qcompare x y with
  | Lt => true
  | _ => false
  end.

#[export] Instance Q_PyFloat : PyFloat Q := {
  of_int := inject_Z;
  add := Qplus;
  sub := Qminus;
  mul := Qmult;
  div := Qdiv;
  ltb := Qltb;
  eqb := Qeq_bool
}.

(** *** IEEE binary64 *)

(** [float(i)] for a Python int with [|i| < 2^63]: exact below [2^53],
    rounded to nearest above.  Larger ints are outside the model. *)
Definition b64_of_int (z : Z) : float :=
  if z <? 0
  then PrimFloat.opp (PrimFloat.of_uint63 (Uint63.of_Z (- z)))
  else PrimFloat.of_uint63 (Uint63.of_Z z).

#[export] Instance b64_PyFloat : PyFloat float := {
  of_int := b64_of_int;
  add := PrimFloat.add;
  sub := PrimFloat.sub;
  mul := PrimFloat.mul;
  div := PrimFloat.div;
  ltb := PrimFloat.ltb;
  eqb := PrimFloat.eqb
}.

(** ** Python lists and numpy arrays *)

(** [np.arange(lo, hi)] on ints: [lo, lo+1, ..., hi-1], empty when
    [hi <= lo]. *)
Definition np_arange (lo hi : Z) : list Z :=
  map (fun i => lo + Z.of_nat i) (seq 0 (Z.to_nat (hi - lo))).

(** [a[i]] on a one-dimensional numpy array: a negative index counts from the
    end, and an index outside [-len, len) raises [IndexError]. *)
Definition np_getitem {A : Type} (a : list A) (i : Z) : py A :=
  let len := Z.of_nat (length a) in
  let k := if i <? 0 then i + len else i in
  if (0 <=? k) && (k <? len)
  then match nth_error a (Z.to_nat k) with
       | Some v => Return v
       | None => Raise IndexError
       end
  else Raise IndexError.

(** [l.remove(j)]: drops the first occurrence of [j], [ValueError] when there
    is none. *)
Fixpoint list_remove (j : Z) (l : list Z) : py (list Z) :=
  match l with
  | [] => Raise ValueError
  | v :: l' =>
      if v =? j then Return l'
      else r <- list_remove j l' ;; Return (v :: r)
  end.

(** [for j in J: l.remove(j)]. *)
Fixpoint remove_each (J : list Z) (l : list Z) : py (list Z) :=
  match J with
  | [] => Return l
  | j :: J' => l' <- list_remove j l ;; remove_each J' l'
  end.

(** ** fisher.py *)

Module Fisher.

Section Builder.

Context {F : Type} {PF : PyFloat F}.

(** [scipy.stats.hypergeom.pmf], an external collaborator of the module:
    [hypergeom_pmf k N G n] is the mass the supplier returns at outcome
    [k].  The vectorised call of the source maps it over the outcomes. *)
Variable hypergeom_pmf : Z -> Z -> Z -> Z -> F.

(** [p_J] starts as the Python int [0] and becomes a numpy float in the
    first iteration.  The two differ as divisors: dividing a Python float
    by the int raises [ZeroDivisionError], dividing by a numpy float never
    raises. *)
Inductive mass : Type :=
| IntZero
| Mass (p : F).

(** The local variables of [fisher_accept] that the loop updates. *)
Record state : Type := mkState {
  posout : list Z;
  bottom : Z;
  top : Z;
  J : list Z;
  p_J : mass;
  p_tail : F
}.

(** Lines 56-73: the choice of the boundary set, its mass, and the new
    end points. *)
Definition select_boundary (bottom top : Z) (pb pt : F)
  : list Z * F * Z * Z :=
  if ltb pb pt then ([bottom], pb, bottom + 1, top)
  else if ltb pt pb then ([top], pt, bottom, top - 1)
  else if bottom <? top
       then ([bottom; top], add pb pt, bottom + 1, top - 1)
       else ([bottom], pb, bottom + 1, top).

(** Lines 54-76: one pass through the body of the [while] loop. *)
Definition loop_body (pmf : list F) (st : state) : py state :=
  pb <- np_getitem pmf (bottom st) ;;
  pt <- np_getitem pmf (top st) ;;
  let '(J', pJ', bottom', top') :=
    select_boundary (bottom st) (top st) pb pt in
  let p_tail' := add (p_tail st) pJ' in
  posout' <- remove_each J' (posout st) ;;
  Return (mkState posout' bottom' top' J' (Mass pJ') p_tail').

(** How a bounded run of the loop ends; [iters] counts the passes through
    the body that completed. *)
Inductive loop_result : Type :=
| Timeout
| Raised (e : exn) (iters : nat)
| Exited (st : state) (iters : nat).

Definition iterations (r : loop_result) : nat :=
  match r with
  | Timeout => O
  | Raised _ k => k
  | Exited _ k => k
  end.

(** Lines 52-76: [while p_tail < alpha: ...]. *)
Fixpoint while_loop (pmf : list F) (alpha : F) (fuel iters : nat)
  (st : state) : loop_result :=
  match fuel with
  | O => Timeout
  | S fuel' =>
      if ltb (p_tail st) alpha
      then match loop_body pmf st with
           | Raise e => Raised e iters
           | Return st' => while_loop pmf alpha fuel' (S iters) st'
           end
      else Exited st iters
  end.

(** Lines 43-51: the state before the loop. *)
Definition initial_state (n : Z) : state :=
  mkState (np_arange 0 (n + 1)) 0 n [] IntZero (of_int 0).

(** Line 46: [pmf = hypergeom.pmf(x, N, G, n)]. *)
Definition pmf_vector (N G n : Z) : list F :=
  map (fun k => hypergeom_pmf k N G n) (np_arange 0 (n + 1)).

(** The loop of [fisher_accept], run with one unit of fuel per outcome and
    one more for the test that leaves it. *)
Definition run_loop (N G n : Z) (alpha : F) : loop_result :=
  while_loop (pmf_vector N G n) alpha
    (S (length (np_arange 0 (n + 1)))) 0 (initial_state n).

(** Line 77: [gamma = (p_tail-alpha)/p_J]. *)
Definition gamma_of (st : state) (alpha : F) : py F :=
  match p_J st with
  | IntZero => Raise ZeroDivisionError
  | Mass p => Return (div (sub (p_tail st) alpha) p)
  end.

(** [fisher_accept(N, G, n, alpha)]; [None] stands for a run that needs
    more fuel than [run_loop] gives it ([fisher_accept_terminates] shows
    there is none). *)
Definition fisher_accept (N G n : Z) (alpha : F)
  : option (py (list Z * list Z * F)) :=
  match run_loop N G n alpha with
  | Timeout => None
  | Raised e _ => Some (Raise e)
  | Exited st _ =>
      Some (gamma <- gamma_of st alpha ;;
            Return (posout st, J st, gamma))
  end.

(** [fisher_accept2(N, G, n, alpha)]: the two assertions of lines 113-114,
    then the statements of [fisher_accept] word for word. *)
Definition fisher_accept2 (N G n : Z) (alpha : F)
  : option (py (list Z * list Z * F)) :=
  if N >? n
  then if N >? G
       then fisher_accept N G n alpha
       else Some (Raise AssertionError)
  else Some (Raise AssertionError).

(** How pytest reports a test function. *)
Inductive test_outcome : Set :=
| Passed
| Failed
| Errored (e : exn).

(** [test_2] (lines 163-172): the call [fisher_accept2(N=10, G=11, n=6)]
    with the default level, inside [try]; an [AssertionError] is caught and
    turned into [pytest.fail], any other exception leaves the test as an
    error. *)
Definition test_2 (alpha_default : F) : option test_outcome :=
  match fisher_accept2 10 11 6 alpha_default with
  | None => None
  | Some (Raise AssertionError) => Some Failed
  | Some (Raise e) => Some (Errored e)
  | Some (Return _) => Some Passed
  end.

(** *** Notions used to state the properties of the loop *)

(** The outcomes still in [posout] are the integers from [bottom] to
    [top]. *)
Definition in_range (n : Z) (st : state) : Prop :=
  0 <= bottom st /\ top st <= n /\ bottom st <= top st + 1 /\
  posout st = np_arange (bottom st) (top st + 1).

(** The same without the bounds on the end points. *)
Definition ranged (st : state) : Prop :=
  posout st = np_arange (bottom st) (top st + 1).

(** The state one pass produces from a state with outcomes left. *)
Definition next_state (N G n : Z) (st : state) : state :=
  let '(Jn, pJ, b, t) :=
    select_boundary (bottom st) (top st)
      (hypergeom_pmf (bottom st) N G n) (hypergeom_pmf (top st) N G n) in
  mkState (np_arange b (t + 1)) b t Jn (Mass pJ) (add (p_tail st) pJ).

(** [J] holds the outcomes removed last: the one just below [bottom], the
    one just above [top], or both. *)
Definition bordering (n : Z) (st : state) : Prop :=
  (J st = [bottom st - 1] /\ 1 <= bottom st) \/
  (J st = [top st + 1] /\ top st + 1 <= n) \/
  (J st = [bottom st - 1; top st + 1] /\
   1 <= bottom st /\ top st + 1 <= n /\ bottom st - 1 < top st + 1).

(** The mass picked in the last pass is what lifted [p_tail] to [alpha]. *)
Definition lifted (alpha : F) (st : state) : Prop :=
  match p_J st with
  | IntZero => True
  | Mass p => exists prev, ltb prev alpha = true /\ p_tail st = add prev p
  end.

(** The states the loop passes through from [st0] while [p_tail < alpha]
    holds. *)
Inductive reaches (pmf : list F) (alpha : F) (st0 : state)
  : state -> Prop :=
| reaches_start : reaches pmf alpha st0 st0
| reaches_pass (st st' : state) :
    reaches pmf alpha st0 st ->
    ltb (p_tail st) alpha = true ->
    loop_body pmf st = Return st' ->
    reaches pmf alpha st0 st'.

End Builder.

Arguments IntZero {F}.
Arguments Mass {F} p.

(** The total mass a supplier [f] puts on the outcomes of [l], in exact
    arithmetic. *)
Definition mass_of (f : Z -> Q) (l : list Z) : Q :=
  fold_right (fun k acc => f k + acc)%Q 0%Q l.

(** In exact arithmetic: [p_tail] is the mass of the outcomes removed so far,
    and [p_J] is the mass of [J]. *)
Definition accounted (f : Z -> Q) (n : Z) (st : state (F := Q)) : Prop :=
  (p_tail st + mass_of f (posout st) == mass_of f (np_arange 0 (n + 1)))%Q /\
  match p_J st with
  | IntZero => True
  | Mass p => (p == mass_of f (J st))%Q
  end.

(** *** The probability supplier *)

Fixpoint binom (n k : nat) : Z :=
  match n, k with
  | _, O => 1
  | O, S _ => 0
  | S n', S k' => binom n' k' + binom n' k
  end.

(** The binomial coefficient [C(n, k)] on integers, [0] outside
    [0 <= k <= n]. *)
Definition choose (n k : Z) : Z :=
  if (k <? 0) || (n <? k) then 0
  else binom (Z.to_nat n) (Z.to_nat k).

(** Modelled from the spec: the hypergeometric probability mass function of
    [scipy.stats], which is not part of the repository, as section 6 states
    it: [P(X = k) = C(G,k) * C(N-G,n-k) / C(N,n)].  In binary64 the quotient
    of the two integers is rounded once. *)
Definition pmf_formula {F : Type} {PF : PyFloat F} (k N G n : Z) : F :=
  div (of_int (choose G k * choose (N - G) (n - k))) (of_int (choose N n)).

(** The builder in exact arithmetic and in binary64. *)
Definition fisher_accept_Q := fisher_accept (F := Q) pmf_formula.
Definition fisher_accept2_Q := fisher_accept2 (F := Q) pmf_formula.
Definition fisher_accept_b64 := fisher_accept (F := float) pmf_formula.

End Fisher.


(** ** chisq.py *)

Module ChiSq.

(** [l.count(v)] on a list of ints. *)
Definition list_count (l : list Z) (v : Z) : Z :=
  Z.of_nat (count_occ Z.eq_dec l v).

(** [v in l]. *)
Definition list_mem (v : Z) (l : list Z) : bool :=
  existsb (Z.eqb v) l.

Fixpoint insert_unique (v : Z) (l : list Z) : list Z :=
  match l with
  | [] => [v]
  | w :: l' =>
      if v <? w then v :: l
      else if v =? w then l
      else w :: insert_unique v l'
  end.

(** [np.unique(z)]: the distinct values of [z] in increasing order. *)
Definition np_unique (z : list Z) : list Z :=
  fold_right insert_unique [] z.

(** [np.unique(z, return_counts=True)]: the distinct values and how often
    each occurs in [z]. *)
Definition np_unique_counts (z : list Z) : list Z * list Z :=
  let u := np_unique z in (u, map (list_count z) u).

Fixpoint mapM {A B : Type} (f : A -> py B) (l : list A) : py (list B) :=
  match l with
  | [] => Return []
  | a :: l' => b <- f a ;; bs <- mapM f l' ;; Return (b :: bs)
  end.

Section Statistic.

Context {F : Type} {PF : PyFloat F}.

(** [a / b] on Python floats: a zero divisor raises. *)
Definition py_div (a b : F) : py F :=
  if eqb b (of_int 0) then Raise ZeroDivisionError else Return (div a b).

(** [d**2] and [np.square(d)]. *)
Definition square (d : F) : F := mul d d.

(** [sum(l)]: the built-in starts from the int [0] and adds from the
    left. *)
Definition py_sum (l : list F) : F := fold_left add l (of_int 0).

(** [np.isnan(t)]: a NaN is the one value that differs from itself. *)
Definition isnan (t : F) : bool := negb (eqb t t).

(** [np.nansum(l)]: the sum with every NaN left out.  (numpy adds in
    pairs rather than from the left; the two agree wherever addition is
    associative.) *)
Definition np_nansum (l : list F) : F :=
  fold_left (fun acc t => if isnan t then acc else add acc t) l (of_int 0).

(** Lines 29-33: the expected counts of [chisq_1]. *)
Definition chisq_1_E_k (x y : list Z) : py (list F) :=
  let n := Z.of_nat (length x) in
  let m := Z.of_nat (length y) in
  let z := x ++ y in
  let u := np_unique z in
  p <- mapM (fun i => py_div (of_int (list_count z i)) (of_int (m + n))) u ;;
  Return (map (fun j => mul (of_int n) j) p).

(** Lines 29-37.  The ints [O_k[i]] are promoted to floats by the
    subtraction. *)
Definition chisq_1 (x y : list Z) : py F :=
  let z := x ++ y in
  let u := np_unique z in
  E_k <- chisq_1_E_k x y ;;
  let O_k := map (fun k => list_count x k) u in
  terms <- mapM (fun '(o, e) => py_div (square (sub (of_int o) e)) e)
             (combine O_k E_k) ;;
  Return (py_sum terms).

(** Lines 48-55: array arithmetic, which never raises. *)
Definition chisq_2 (x y : list Z) : F :=
  let n := Z.of_nat (length x) in
  let m := Z.of_nat (length y) in
  let z := x ++ y in
  let '(u, counts) := np_unique_counts z in
  let p := map (fun c => div (of_int c) (of_int (n + m))) counts in
  let E_k := map (fun q => mul q (of_int n)) p in
  let O_k := map (fun k => list_count x k) u in
  np_nansum (map (fun '(o, e) => div (square (sub (of_int o) e)) e)
               (combine O_k E_k)).

(** Lines 68-71: the distinct values of [z] in the order of their first
    occurrence. *)
Definition first_occurrences (z : list Z) : py (list Z) :=
  match z with
  | [] => Raise IndexError
  | z0 :: _ =>
      Return (fold_left (fun u i => if list_mem i u then u else u ++ [i])
                z [z0])
  end.

(** Lines 66-81: the expected counts of [chisq_3]. *)
Definition chisq_3_E_k (x y : list Z) : py (list F) :=
  let n := Z.of_nat (length x) in
  let m := Z.of_nat (length y) in
  let z := x ++ y in
  u <- first_occurrences z ;;
  p <- mapM (fun j => py_div (of_int (list_count z j)) (of_int (n + m))) u ;;
  Return (map (fun freq => mul freq (of_int n)) p).

(** Lines 89-91: the accumulation loop. *)
Fixpoint accumulate (chi_s : F) (l : list (Z * F)) : py F :=
  match l with
  | [] => Return chi_s
  | (o, e) :: l' =>
      t <- py_div (square (sub (of_int o) e)) e ;;
      accumulate (add chi_s t) l'
  end.

(** Lines 66-92. *)
Definition chisq_3 (x y : list Z) : py F :=
  let z := x ++ y in
  u <- first_occurrences z ;;
  E_k <- chisq_3_E_k x y ;;
  let O_k := map (fun r => list_count x r) u in
  accumulate (of_int 0) (combine O_k E_k).

End Statistic.

(** The distinct values of a list, each at the place of its first
    occurrence, by recursion on the list. *)
Fixpoint keep_first (l : list Z) : list Z :=
  match l with
  | [] => []
  | a :: l' => a :: filter (fun b => negb (b =? a)) (keep_first l')
  end.

(** The sum of a list of rationals, from the right. *)
Definition qsum (l : list Q) : Q := fold_right Qplus 0%Q l.

(** The expected count of the value [v], as [chisq_1] and as [chisq_2] and
    [chisq_3] write it, and the term of the statistic that belongs to [v],
    in exact arithmetic. *)
Definition expected_1 (x y : list Z) (v : Z) : Q :=
  (inject_Z (Z.of_nat (length x))
   * (inject_Z (list_count (x ++ y) v)
      / inject_Z (Z.of_nat (length y) + Z.of_nat (length x))))%Q.

Definition expected_3 (x y : list Z) (v : Z) : Q :=
  (inject_Z (list_count (x ++ y) v)
   / inject_Z (Z.of_nat (length x) + Z.of_nat (length y))
   * inject_Z (Z.of_nat (length x)))%Q.

Definition term (x : list Z) (e : Q) (v : Z) : Q :=
  ((inject_Z (list_count x v) - e) * (inject_Z (list_count x v) - e) / e)%Q.

(** The two samples have the same relative frequencies: every value takes
    the same share of [x] as of [y]. *)
Definition same_frequencies (x y : list Z) : Prop :=
  forall v, list_count x v * Z.of_nat (length y)
            = list_count y v * Z.of_nat (length x).

(** The two fixed samples of the module's tests. *)
Definition fixtest_x : list Z := [1; 1; 2; 2; 2; 3; 4; 4; 4; 5].
Definition fixtest_y : list Z := [2; 2; 3; 4; 4; 5; 5; 5].

End ChiSq.
(** * Properties *)

(** ** Fallible computations *)

Lemma bind_Return {A B : Type} (m : py A) (k : A -> py B) (b : B) :
  bind m k = Return b -> exists a, m = Return a /\ k a = Return b.
Proof.
  destruct m as [e | a]; simpl; intros H; [discriminate | eauto].
Qed.

(** ** Order laws of the two arithmetics *)

Lemma Qltb_lt (x y : Q) : Qltb x y = true <-> (x < y)%Q.
Proof.
  unfold Qltb. rewrite Qlt_alt.
  destruct (x ?= y)%Q; split; intros H; congruence.
Qed.

Lemma Qltb_ge (x y : Q) : Qltb x y = false <-> (y <= x)%Q.
Proof.
  split; intros H.
  - apply Qnot_lt_le. intros Hlt. apply Qltb_lt in Hlt. congruence.
  - destruct (Qltb x y) eqn:E; [| reflexivity].
    apply Qltb_lt in E. exfalso. exact (Qlt_not_le _ _ E H).
Qed.

#[export] Instance Q_PyFloatOrder : PyFloatOrder Q.
Proof.
  split; simpl.
  - intros x y H. apply Qltb_lt in H. apply Qltb_ge. apply Qlt_le_weak, H.
  - intros x y z H1 H2. apply Qltb_lt in H1, H2. apply Qltb_lt.
    eapply Qlt_trans; eassumption.
  - intros x y H. apply Qeq_bool_iff in H.
    split; apply Qltb_ge; rewrite H; apply Qle_refl.
  - intros x a p H Hp. apply Qeq_bool_iff in Hp. apply Qltb_lt in H.
    apply Qltb_lt. rewrite Hp. unfold inject_Z. rewrite Qplus_0_r. exact H.
Qed.

(** Comparison and addition of IEEE values, on the specification side
    ([SpecFloat]); the primitive operations are linked to it by the
    library's [ltb_spec], [eqb_spec] and [add_spec]. *)

Ltac fold_poscmp :=
  repeat match goal with
         | |- context [PosDef.Pos.compare_cont Eq ?a ?b] =>
             change (PosDef.Pos.compare_cont Eq a b) with (Pos.compare a b)
         | H : context [PosDef.Pos.compare_cont Eq ?a ?b] |- _ =>
             change (PosDef.Pos.compare_cont Eq a b) with (Pos.compare a b) in H
         end.

Ltac cmp_cases :=
  repeat match goal with
         | |- context [(?a ?= ?b)%Z] => destruct (Z.compare_spec a b)
         | H : context [(?a ?= ?b)%Z] |- _ => destruct (Z.compare_spec a b)
         | |- context [(?a ?= ?b)%positive] => destruct (Pos.compare_spec a b)
         | H : context [(?a ?= ?b)%positive] |- _ =>
             destruct (Pos.compare_spec a b)
         end.

Ltac sf_order :=
  simpl in *; fold_poscmp; cmp_cases; simpl in *;
  try discriminate; try reflexivity; try (split; reflexivity); try lia.

Lemma SFltb_asym (x y : spec_float) : SFltb x y = true -> SFltb y x = false.
Proof.
  unfold SFltb.
  destruct x as [[] | [] | | [] mx ex], y as [[] | [] | | [] my ey];
    intros H; sf_order.
Qed.

Lemma SFeqb_not_ltb (x y : spec_float) :
  SFeqb x y = true -> SFltb x y = false /\ SFltb y x = false.
Proof.
  unfold SFeqb, SFltb.
  destruct x as [[] | [] | | [] mx ex], y as [[] | [] | | [] my ey];
    intros H; sf_order.
Qed.

Lemma SFltb_trans (x y z : spec_float) :
  SFltb x y = true -> SFltb y z = true -> SFltb x z = true.
Proof.
  unfold SFltb.
  destruct x as [[] | [] | | [] mx ex], y as [[] | [] | | [] my ey],
      z as [[] | [] | | [] mz ez];
    intros H1 H2; sf_order.
Qed.

Lemma SFeqb_zero (x : spec_float) (s : bool) :
  SFeqb x (S754_zero s) = true -> exists s', x = S754_zero s'.
Proof.
  unfold SFeqb.
  destruct x as [[] | [] | | [] mx ex]; simpl; try discriminate; eauto.
Qed.

(** Adding a zero of either sign never changes how a value compares. *)
Lemma SFltb_add_zero (x a : spec_float) (s : bool) :
  SFltb x a = true -> SFltb (SF64add x (S754_zero s)) a = true.
Proof.
  unfold SF64add, SFadd, SFltb.
  destruct x as [[] | sx | | sx mx ex], s, a; simpl; try discriminate; auto.
Qed.

Lemma b64_of_int_0 : Prim2SF (b64_of_int 0) = S754_zero false.
Proof. reflexivity. Qed.

#[export] Instance b64_PyFloatOrder : PyFloatOrder float.
Proof.
  split; simpl.
  - intros x y. rewrite !ltb_spec. apply SFltb_asym.
  - intros x y z. rewrite !ltb_spec. apply SFltb_trans.
  - intros x y. rewrite eqb_spec, !ltb_spec. apply SFeqb_not_ltb.
  - intros x a p Hx Hp. rewrite eqb_spec, b64_of_int_0 in Hp.
    apply SFeqb_zero in Hp. destruct Hp as [s Hs].
    rewrite ltb_spec in Hx. rewrite ltb_spec, add_spec, Hs.
    apply SFltb_add_zero, Hx.
Qed.


(** ** Lists and arrays *)

Lemma np_arange_length (lo hi : Z) :
  length (np_arange lo hi) = Z.to_nat (hi - lo).
Proof. unfold np_arange. now rewrite length_map, length_seq. Qed.

Lemma np_arange_nil (lo hi : Z) : hi <= lo -> np_arange lo hi = [].
Proof.
  intros H. unfold np_arange.
  replace (Z.to_nat (hi - lo)) with O by lia. reflexivity.
Qed.

Lemma np_arange_cons (lo hi : Z) :
  lo < hi -> np_arange lo hi = lo :: np_arange (lo + 1) hi.
Proof.
  intros H. unfold np_arange.
  replace (Z.to_nat (hi - lo)) with (S (Z.to_nat (hi - (lo + 1)))) by lia.
  simpl. f_equal; [lia |].
  rewrite <- seq_shift, map_map. apply map_ext. intros i. lia.
Qed.

Lemma np_arange_snoc (lo hi : Z) :
  lo < hi -> np_arange lo hi = np_arange lo (hi - 1) ++ [hi - 1].
Proof.
  intros H. unfold np_arange.
  replace (Z.to_nat (hi - lo)) with (Z.to_nat (hi - 1 - lo) + 1)%nat by lia.
  rewrite seq_app, map_app. simpl. do 2 f_equal. lia.
Qed.

Lemma np_arange_In (lo hi k : Z) : In k (np_arange lo hi) <-> lo <= k < hi.
Proof.
  unfold np_arange. rewrite in_map_iff. split.
  - intros [i [<- Hi]]. apply in_seq in Hi. lia.
  - intros H. exists (Z.to_nat (k - lo)). split; [lia |].
    apply in_seq. lia.
Qed.

Lemma np_arange_nth (lo hi : Z) (i : nat) :
  (i < Z.to_nat (hi - lo))%nat ->
  nth_error (np_arange lo hi) i = Some (lo + Z.of_nat i).
Proof.
  intros H. unfold np_arange.
  rewrite nth_error_map, nth_error_seq.
  destruct (Nat.ltb_spec i (Z.to_nat (hi - lo))); [reflexivity | lia].
Qed.

(** Reading a mapped [arange] at an index that lies in range. *)
Lemma np_getitem_map_arange {A : Type} (f : Z -> A) (n k : Z) :
  0 <= k <= n ->
  np_getitem (map f (np_arange 0 (n + 1))) k = Return (f k).
Proof.
  intros H. unfold np_getitem.
  rewrite length_map, np_arange_length.
  destruct (Z.ltb_spec k 0); [lia |].
  destruct (Z.leb_spec 0 k); [| lia].
  destruct (Z.ltb_spec k (Z.of_nat (Z.to_nat (n + 1 - 0)))); [| lia].
  simpl. rewrite nth_error_map, np_arange_nth by lia.
  simpl. f_equal. f_equal. lia.
Qed.

Lemma list_remove_length (j : Z) (l l' : list Z) :
  list_remove j l = Return l' -> length l = S (length l').
Proof.
  revert l'. induction l as [| v l IH]; simpl; intros l' H; [discriminate |].
  destruct (v =? j).
  - now inversion H.
  - apply bind_Return in H. destruct H as [r [Hr Hl]].
    inversion Hl; subst. simpl. f_equal. now apply IH.
Qed.

Lemma list_remove_incl (j : Z) (l l' : list Z) :
  list_remove j l = Return l' -> incl l' l.
Proof.
  revert l'. induction l as [| v l IH]; simpl; intros l' H; [discriminate |].
  destruct (v =? j).
  - inversion H; subst. apply incl_tl, incl_refl.
  - apply bind_Return in H. destruct H as [r [Hr Hl]].
    inversion Hl; subst. apply incl_cons; [now left |].
    apply incl_tl. now apply IH.
Qed.

Lemma remove_each_length (J l l' : list Z) :
  remove_each J l = Return l' -> length l = (length J + length l')%nat.
Proof.
  revert l. induction J as [| j J IH]; simpl; intros l H.
  - now inversion H.
  - apply bind_Return in H. destruct H as [r [Hr Hl]].
    apply list_remove_length in Hr. apply IH in Hl. lia.
Qed.

Lemma remove_each_incl (J l l' : list Z) :
  remove_each J l = Return l' -> incl l' l.
Proof.
  revert l. induction J as [| j J IH]; simpl; intros l H.
  - inversion H. apply incl_refl.
  - apply bind_Return in H. destruct H as [r [Hr Hl]].
    apply IH in Hl. apply list_remove_incl in Hr.
    eapply incl_tran; eassumption.
Qed.

(** Removing the first element of a range, and its last one. *)
Lemma list_remove_arange_first (lo hi : Z) :
  lo < hi -> list_remove lo (np_arange lo hi) = Return (np_arange (lo + 1) hi).
Proof.
  intros H. rewrite np_arange_cons by assumption. simpl.
  now rewrite Z.eqb_refl.
Qed.

Lemma list_remove_app_last (j : Z) (l : list Z) :
  ~ In j l -> list_remove j (l ++ [j]) = Return l.
Proof.
  induction l as [| v l IH]; simpl; intros H.
  - now rewrite Z.eqb_refl.
  - destruct (Z.eqb_spec v j) as [-> | Hne]; [tauto |].
    rewrite IH by tauto. reflexivity.
Qed.

Lemma list_remove_arange_last (lo hi : Z) :
  lo < hi -> list_remove (hi - 1) (np_arange lo hi) = Return (np_arange lo (hi - 1)).
Proof.
  intros H. rewrite np_arange_snoc by assumption.
  apply list_remove_app_last. rewrite np_arange_In. lia.
Qed.

Lemma list_remove_arange_top (lo t : Z) :
  lo <= t -> list_remove t (np_arange lo (t + 1)) = Return (np_arange lo (t - 1 + 1)).
Proof.
  intros H. pose proof (list_remove_arange_last lo (t + 1)) as E.
  replace (t + 1 - 1) with t in E by lia.
  replace (t - 1 + 1) with t by lia. apply E. lia.
Qed.

(** ** The removal loop of [fisher_accept] *)

Module FisherFacts.

Import Fisher.

Section Loop.

Context {F : Type} {PF : PyFloat F}.
Variable hypergeom_pmf : Z -> Z -> Z -> Z -> F.

(** A pass through the body, taken apart. *)
Lemma loop_body_Return (pmf : list F) (st st' : state) :
  loop_body pmf st = Return st' ->
  exists pb pt Jn pJ b t po,
    np_getitem pmf (bottom st) = Return pb /\
    np_getitem pmf (top st) = Return pt /\
    select_boundary (bottom st) (top st) pb pt = (Jn, pJ, b, t) /\
    remove_each Jn (posout st) = Return po /\
    st' = mkState po b t Jn (Mass pJ) (add (p_tail st) pJ).
Proof.
  unfold loop_body. intros H.
  apply bind_Return in H. destruct H as [pb [Hpb H]].
  apply bind_Return in H. destruct H as [pt [Hpt H]].
  destruct (select_boundary (bottom st) (top st) pb pt)
    as [[[Jn pJ] b] t] eqn:Hsel.
  apply bind_Return in H. destruct H as [po [Hpo H]].
  inversion H; subst.
  exists pb, pt, Jn, pJ, b, t, po. repeat split; assumption.
Qed.

(** The boundary set is never empty. *)
Lemma select_boundary_nonempty (b t : Z) (pb pt : F) Jn pJ b' t' :
  select_boundary b t pb pt = (Jn, pJ, b', t') -> (1 <= length Jn)%nat.
Proof.
  unfold select_boundary. intros H.
  destruct (ltb pb pt); [| destruct (ltb pt pb); [| destruct (b <? t)]];
    inversion H; subst; simpl; lia.
Qed.

(** Each completed pass removes at least one outcome, and only removes. *)
Lemma loop_body_shrinks (pmf : list F) (st st' : state) :
  loop_body pmf st = Return st' ->
  (length (posout st') < length (posout st))%nat /\
  incl (posout st') (posout st).
Proof.
  intros H. apply loop_body_Return in H.
  destruct H as (pb & pt & Jn & pJ & b & t & po & _ & _ & Hsel & Hrm & ->).
  simpl. split.
  - apply select_boundary_nonempty in Hsel.
    apply remove_each_length in Hrm. lia.
  - eapply remove_each_incl; eassumption.
Qed.

(** Fuel beyond the number of outcomes that are left is never used up. *)
Lemma while_loop_terminates (pmf : list F) (alpha : F) (fuel : nat) :
  forall (iters : nat) (st : state),
    (length (posout st) < fuel)%nat ->
    while_loop pmf alpha fuel iters st <> Timeout.
Proof.
  induction fuel as [| fuel IH]; intros iters st Hlen; [lia |].
  simpl. destruct (ltb (p_tail st) alpha); [| discriminate].
  destruct (loop_body pmf st) as [e | st'] eqn:Hbody; [discriminate |].
  apply IH. apply loop_body_shrinks in Hbody. lia.
Qed.

(** The passes that completed are paid for by outcomes that were
    removed. *)
Lemma while_loop_Exited_iters (pmf : list F) (alpha : F) (fuel : nat) :
  forall (iters : nat) (st st' : state) (k : nat),
    while_loop pmf alpha fuel iters st = Exited st' k ->
    (iters <= k)%nat /\
    (k + length (posout st') <= iters + length (posout st))%nat /\
    incl (posout st') (posout st).
Proof.
  induction fuel as [| fuel IH]; intros iters st st' k H; [discriminate |].
  simpl in H. destruct (ltb (p_tail st) alpha).
  - destruct (loop_body pmf st) as [e | st1] eqn:Hbody; [discriminate |].
    apply IH in H. apply loop_body_shrinks in Hbody.
    destruct H as (H1 & H2 & H3), Hbody as (H4 & H5).
    repeat split; try lia. eapply incl_tran; eassumption.
  - inversion H; subst. repeat split; try lia. apply incl_refl.
Qed.

Lemma while_loop_Raised_iters (pmf : list F) (alpha : F) (fuel : nat) :
  forall (iters : nat) (st : state) (e : exn) (k : nat),
    while_loop pmf alpha fuel iters st = Raised e k ->
    (iters <= k <= iters + length (posout st))%nat.
Proof.
  induction fuel as [| fuel IH]; intros iters st e k H; [discriminate |].
  simpl in H. destruct (ltb (p_tail st) alpha); [| discriminate].
  destruct (loop_body pmf st) as [e1 | st1] eqn:Hbody.
  - inversion H; subst. lia.
  - apply IH in H. apply loop_body_shrinks in Hbody. lia.
Qed.

(** The loop of [fisher_accept] always ends, whatever the arithmetic and
    the supplier: by leaving the loop or by an exception, after at most
    [n + 1] completed passes. *)
Lemma run_loop_terminates (N G n : Z) (alpha : F) :
  run_loop hypergeom_pmf N G n alpha <> Timeout /\
  Z.of_nat (iterations (run_loop hypergeom_pmf N G n alpha)) <= Z.max 0 (n + 1).
Proof.
  unfold run_loop. split.
  - apply while_loop_terminates. simpl. lia.
  - destruct (while_loop _ _ _ _ _) as [| e k | st k] eqn:Hrun; simpl.
    + lia.
    + apply while_loop_Raised_iters in Hrun. simpl in Hrun.
      rewrite np_arange_length in Hrun. lia.
    + apply while_loop_Exited_iters in Hrun. simpl in Hrun.
      rewrite np_arange_length in Hrun. lia.
Qed.

Lemma fisher_accept_terminates (N G n : Z) (alpha : F) :
  fisher_accept hypergeom_pmf N G n alpha <> None.
Proof.
  unfold fisher_accept.
  destruct (run_loop_terminates N G n alpha) as [H _].
  destruct (run_loop hypergeom_pmf N G n alpha); congruence.
Qed.

(** **** Invariants *)

(** What every state that leaves the loop inherits from a property the
    body preserves. *)
Lemma while_loop_invariant (pmf : list F) (alpha : F) (P : state -> Prop) :
  (forall st st', P st -> ltb (p_tail st) alpha = true ->
                  loop_body pmf st = Return st' -> P st') ->
  forall (fuel iters : nat) (st st' : state) (k : nat),
    P st ->
    while_loop pmf alpha fuel iters st = Exited st' k ->
    P st' /\ ltb (p_tail st') alpha = false.
Proof.
  intros Hstep. induction fuel as [| fuel IH]; intros iters st st' k HP H;
    [discriminate |].
  simpl in H. destruct (ltb (p_tail st) alpha) eqn:Hc.
  - destruct (loop_body pmf st) as [e | st1] eqn:Hbody; [discriminate |].
    eapply IH; [| eassumption]. eapply Hstep; eassumption.
  - inversion H; subst. split; assumption.
Qed.

(** A loop whose body cannot fail while the property holds does not
    raise. *)
Lemma while_loop_no_raise (pmf : list F) (alpha : F) (P : state -> Prop) :
  (forall st, P st -> ltb (p_tail st) alpha = true ->
              exists st', loop_body pmf st = Return st' /\ P st') ->
  forall (fuel iters : nat) (st : state) (e : exn) (k : nat),
    P st ->
    while_loop pmf alpha fuel iters st <> Raised e k.
Proof.
  intros Hstep. induction fuel as [| fuel IH]; intros iters st e k HP;
    [discriminate |].
  simpl. destruct (ltb (p_tail st) alpha) eqn:Hc; [| discriminate].
  destruct (Hstep st HP Hc) as [st1 [Hbody HP1]]. rewrite Hbody.
  now apply IH.
Qed.

Lemma initial_in_range (n : Z) : 0 <= n -> in_range n (initial_state n).
Proof. intros H. unfold in_range. simpl. repeat split; lia. Qed.

Lemma loop_body_in_range (N G n : Z) (st : state) :
  in_range n st -> bottom st <= top st ->
  loop_body (pmf_vector hypergeom_pmf N G n) st = Return (next_state hypergeom_pmf N G n st) /\
  in_range n (next_state hypergeom_pmf N G n st).
Proof.
  intros (Hb & Ht & Hbt & Hpo) Hne.
  unfold loop_body, next_state, pmf_vector.
  rewrite !np_getitem_map_arange by lia. simpl.
  unfold select_boundary, in_range.
  destruct (ltb _ _); [| destruct (ltb _ _); [| destruct (Z.ltb_spec (bottom st) (top st))]];
    simpl; rewrite Hpo.
  - rewrite list_remove_arange_first by lia. simpl.
    repeat split; lia.
  - rewrite list_remove_arange_top by lia. simpl.
    repeat split; lia.
  - rewrite list_remove_arange_first by lia. simpl.
    rewrite list_remove_arange_top by lia. simpl.
    repeat split; lia.
  - rewrite list_remove_arange_first by lia. simpl.
    repeat split; lia.
Qed.

Lemma np_getitem_Raise {A : Type} (a : list A) (i : Z) (e : exn) :
  np_getitem a i = Raise e -> e = IndexError.
Proof.
  unfold np_getitem.
  destruct (_ && _); [destruct (nth_error _ _) |]; intros H;
    now inversion H.
Qed.

(** With no outcome left, a further pass fails: on reading the array, or
    on removing an outcome that is no longer there. *)
Lemma loop_body_exhausted (pmf : list F) (st : state) :
  posout st = [] ->
  loop_body pmf st = Raise IndexError \/ loop_body pmf st = Raise ValueError.
Proof.
  intros Hpo. unfold loop_body.
  destruct (np_getitem pmf (bottom st)) as [e | pb] eqn:Hpb; simpl.
  { left. apply np_getitem_Raise in Hpb. now subst. }
  destruct (np_getitem pmf (top st)) as [e | pt] eqn:Hpt; simpl.
  { left. apply np_getitem_Raise in Hpt. now subst. }
  right.
  destruct (select_boundary (bottom st) (top st) pb pt)
    as [[[Jn pJ] b] t] eqn:Hsel.
  apply select_boundary_nonempty in Hsel.
  rewrite Hpo. destruct Jn as [| j Jn]; [simpl in Hsel; lia |].
  reflexivity.
Qed.

Lemma loop_body_Return_in_range (N G n : Z) (st st' : state) :
  in_range n st ->
  loop_body (pmf_vector hypergeom_pmf N G n) st = Return st' ->
  bottom st <= top st /\ st' = next_state hypergeom_pmf N G n st /\ in_range n st'.
Proof.
  intros Hr Hbody.
  destruct (Z_le_gt_dec (bottom st) (top st)) as [Hle | Hgt].
  - destruct (loop_body_in_range N G n st Hr Hle) as [Hb Hr'].
    rewrite Hb in Hbody. inversion Hbody; subst. auto.
  - exfalso. destruct Hr as (_ & _ & _ & Hpo).
    rewrite np_arange_nil in Hpo by lia.
    destruct (loop_body_exhausted (pmf_vector hypergeom_pmf N G n) st Hpo)
      as [H | H]; congruence.
Qed.

Lemma loop_body_ranged (pmf : list F) (st st' : state) :
  ranged st -> loop_body pmf st = Return st' ->
  bottom st <= top st /\ ranged st'.
Proof.
  unfold ranged. intros Hpo Hbody.
  assert (Hne : bottom st <= top st).
  { destruct (Z_le_gt_dec (bottom st) (top st)) as [Hle | Hgt]; [assumption |].
    rewrite np_arange_nil in Hpo by lia.
    destruct (loop_body_exhausted pmf st Hpo); congruence. }
  split; [assumption |].
  apply loop_body_Return in Hbody.
  destruct Hbody as (pb & pt & Jn & pJ & b & t & po & _ & _ & Hsel & Hrm & ->).
  simpl. rewrite Hpo in Hrm. unfold select_boundary in Hsel.
  destruct (ltb pb pt);
    [| destruct (ltb pt pb);
       [| destruct (Z.ltb_spec (bottom st) (top st))]];
    inversion Hsel; subst; simpl in Hrm.
  - rewrite list_remove_arange_first in Hrm by lia. now inversion Hrm.
  - rewrite list_remove_arange_top in Hrm by lia. now inversion Hrm.
  - rewrite list_remove_arange_first in Hrm by lia. simpl in Hrm.
    rewrite list_remove_arange_top in Hrm by lia. now inversion Hrm.
  - rewrite list_remove_arange_first in Hrm by lia. now inversion Hrm.
Qed.

Lemma reaches_ranged (pmf : list F) (alpha : F) (st0 st : state) :
  reaches pmf alpha st0 st -> ranged st0 -> ranged st.
Proof.
  induction 1 as [| st st' _ IH _ Hbody]; intros H0; [assumption |].
  eapply loop_body_ranged; [apply IH, H0 | exact Hbody].
Qed.

Lemma reaches_first (pmf : list F) (alpha : F) (st0 st1 st : state) :
  ltb (p_tail st0) alpha = true ->
  loop_body pmf st0 = Return st1 ->
  reaches pmf alpha st1 st ->
  reaches pmf alpha st0 st.
Proof.
  intros Hc Hbody. induction 1 as [| s s' _ IH Hc' Hbody'].
  - eapply reaches_pass; [apply reaches_start | assumption | assumption].
  - eapply reaches_pass; eassumption.
Qed.

(** A run that ends goes on from every state it passes through. *)
Lemma reaches_while_loop (pmf : list F) (alpha : F) (st0 st : state) :
  reaches pmf alpha st0 st ->
  forall fuel iters,
    while_loop pmf alpha fuel iters st0 <> Timeout ->
    exists fuel' iters',
      while_loop pmf alpha fuel iters st0 =
      while_loop pmf alpha fuel' iters' st.
Proof.
  induction 1 as [| st st' _ IH Hc Hbody]; intros fuel iters Hend.
  - now exists fuel, iters.
  - destruct (IH fuel iters Hend) as (fuel' & iters' & E).
    rewrite E in Hend |- *.
    destruct fuel' as [| fuel']; [now elim Hend |].
    simpl. rewrite Hc, Hbody. now exists fuel', (S iters').
Qed.

(** The exceptions the builder can raise. *)
Lemma loop_body_Raise (pmf : list F) (st : state) (e : exn) :
  loop_body pmf st = Raise e -> e = IndexError \/ e = ValueError.
Proof.
  unfold loop_body.
  destruct (np_getitem pmf (bottom st)) as [e1 | pb] eqn:Hpb; simpl.
  { intros H. inversion H; subst. left. eapply np_getitem_Raise, Hpb. }
  destruct (np_getitem pmf (top st)) as [e1 | pt] eqn:Hpt; simpl.
  { intros H. inversion H; subst. left. eapply np_getitem_Raise, Hpt. }
  destruct (select_boundary (bottom st) (top st) pb pt)
    as [[[Jn pJ] b] t].
  destruct (remove_each Jn (posout st)) as [e1 | po] eqn:Hrm; simpl;
    [| discriminate].
  intros H. inversion H; subst. right.
  clear - Hrm. revert Hrm. generalize (posout st).
  induction Jn as [| j Jn IH]; simpl; intros l Hrm; [discriminate |].
  destruct (list_remove j l) as [e1 | l1] eqn:Hl; simpl in Hrm.
  - inversion Hrm; subst. clear - Hl. revert e Hl.
    induction l as [| v l IHl]; simpl; intros e Hl; [now inversion Hl |].
    destruct (v =? j); [discriminate |].
    destruct (list_remove j l) as [e1 | l1]; simpl in Hl; [| discriminate].
    inversion Hl; subst. now apply IHl.
  - eapply IH, Hrm.
Qed.

Lemma while_loop_Raised (pmf : list F) (alpha : F) (fuel : nat) :
  forall (iters : nat) (st : state) (e : exn) (k : nat),
    while_loop pmf alpha fuel iters st = Raised e k ->
    e = IndexError \/ e = ValueError.
Proof.
  induction fuel as [| fuel IH]; intros iters st e k H; [discriminate |].
  simpl in H. destruct (ltb (p_tail st) alpha); [| discriminate].
  destruct (loop_body pmf st) as [e1 | st1] eqn:Hbody.
  - inversion H; subst. eapply loop_body_Raise, Hbody.
  - eapply IH, H.
Qed.

Lemma fisher_accept_Raise (N G n : Z) (alpha : F) (e : exn) :
  fisher_accept hypergeom_pmf N G n alpha = Some (Raise e) ->
  e = IndexError \/ e = ValueError \/ e = ZeroDivisionError.
Proof.
  unfold fisher_accept, run_loop.
  destruct (while_loop _ _ _ _ _) as [| e1 k | st k] eqn:Hrun;
    [discriminate | |].
  - intros H. inversion H; subst.
    apply while_loop_Raised in Hrun. tauto.
  - unfold gamma_of. destruct (p_J st); simpl; intros H; inversion H.
    tauto.
Qed.

End Loop.

(** *** Properties of the builder in every lawful arithmetic *)

Section Builder.

Context {F : Type} {PF : PyFloat F} {PO : PyFloatOrder F}.
Variable hypergeom_pmf : Z -> Z -> Z -> Z -> F.

(** C1.  Every pass through the body of the removal loop that completes
    picks the boundary set by the tie-break policy: the end point with the
    smaller mass; both end points, with the sum of their masses, on an
    exact tie between two distinct end points; the single outcome left when
    the two end points coincide.  It then adds the mass picked to [p_tail]
    and removes the outcomes picked from [posout]. *)
Theorem tie_break_policy (pmf : list F) (st st' : state) :
  loop_body pmf st = Return st' ->
  exists pb pt pJ,
    np_getitem pmf (bottom st) = Return pb /\
    np_getitem pmf (top st) = Return pt /\
    (ltb pb pt = true ->
     J st' = [bottom st] /\ pJ = pb /\
     bottom st' = bottom st + 1 /\ top st' = top st) /\
    (ltb pt pb = true ->
     J st' = [top st] /\ pJ = pt /\
     bottom st' = bottom st /\ top st' = top st - 1) /\
    (eqb pb pt = true -> bottom st < top st ->
     J st' = [bottom st; top st] /\ pJ = add pb pt /\
     bottom st' = bottom st + 1 /\ top st' = top st - 1) /\
    (eqb pb pt = true -> bottom st = top st ->
     J st' = [bottom st] /\ pJ = pb /\
     bottom st' = bottom st + 1 /\ top st' = top st) /\
    p_J st' = Mass pJ /\
    p_tail st' = add (p_tail st) pJ /\
    remove_each (J st') (posout st) = Return (posout st').
Proof.
  intros Hbody. apply loop_body_Return in Hbody.
  destruct Hbody as (pb & pt & Jn & pJ & b & t & po & Hpb & Hpt & Hsel & Hrm & ->).
  exists pb, pt, pJ. simpl.
  split; [assumption |]. split; [assumption |].
  unfold select_boundary in Hsel.
  split; [| split; [| split; [| split; [| now auto]]]].
  - intros Hlt. rewrite Hlt in Hsel. inversion Hsel; subst. auto.
  - intros Hgt. rewrite (ltb_asym _ _ Hgt), Hgt in Hsel.
    inversion Hsel; subst. auto.
  - intros Heq Hbt. destruct (eqb_not_ltb _ _ Heq) as [H1 H2].
    rewrite H1, H2 in Hsel.
    destruct (Z.ltb_spec (bottom st) (top st)); [| lia].
    inversion Hsel; subst. auto.
  - intros Heq Hbt. destruct (eqb_not_ltb _ _ Heq) as [H1 H2].
    rewrite H1, H2 in Hsel.
    destruct (Z.ltb_spec (bottom st) (top st)); [lia |].
    inversion Hsel; subst. auto.
Qed.

(** Two runs that differ in [alpha] only: the one with the smaller level
    leaves the loop first. *)
Lemma while_loop_alpha_mono (pmf : list F) (a1 a2 : F) :
  ltb a1 a2 = true ->
  forall (fuel1 fuel2 k1 k2 : nat) (st st1 st2 : state) (i1 i2 : nat),
    while_loop pmf a1 fuel1 k1 st = Exited st1 i1 ->
    while_loop pmf a2 fuel2 k2 st = Exited st2 i2 ->
    incl (posout st2) (posout st1).
Proof.
  intros Ha. induction fuel1 as [| fuel1 IH];
    intros fuel2 k1 k2 st st1 st2 i1 i2 H1 H2; [discriminate |].
  simpl in H1. destruct (ltb (p_tail st) a1) eqn:Hc1.
  - destruct fuel2 as [| fuel2]; [discriminate |].
    simpl in H2. rewrite (ltb_trans _ _ _ Hc1 Ha) in H2.
    destruct (loop_body pmf st) as [e | st'] eqn:Hbody; [discriminate |].
    eapply IH; eassumption.
  - inversion H1; subst.
    apply while_loop_Exited_iters in H2. tauto.
Qed.

Lemma fisher_accept_Return (N G n : Z) (alpha : F) I Jn g :
  fisher_accept hypergeom_pmf N G n alpha = Some (Return (I, Jn, g)) ->
  exists st k p,
    run_loop hypergeom_pmf N G n alpha = Exited st k /\
    I = posout st /\ Jn = J st /\ p_J st = Mass p /\
    g = div (sub (p_tail st) alpha) p.
Proof.
  unfold fisher_accept, gamma_of.
  destruct (run_loop hypergeom_pmf N G n alpha) as [| e k | st k];
    try discriminate.
  destruct (p_J st) as [| p] eqn:HpJ; simpl; intros H; inversion H; subst.
  now exists st, k, p.
Qed.

(** C6, as amended.  For fixed [N], [G] and [n] and two levels
    [alpha1 < alpha2] on which the builder returns, every outcome of the
    acceptance set for [alpha2] is in the acceptance set for [alpha1]: a
    smaller level gives a larger acceptance set. *)
Theorem acceptance_set_antitone (N G n : Z) (alpha1 alpha2 : F)
    (I1 J1 I2 J2 : list Z) (g1 g2 : F) :
  ltb alpha1 alpha2 = true ->
  fisher_accept hypergeom_pmf N G n alpha1 = Some (Return (I1, J1, g1)) ->
  fisher_accept hypergeom_pmf N G n alpha2 = Some (Return (I2, J2, g2)) ->
  incl I2 I1.
Proof.
  intros Ha H1 H2.
  apply fisher_accept_Return in H1, H2.
  destruct H1 as (st1 & k1 & p1 & R1 & -> & _).
  destruct H2 as (st2 & k2 & p2 & R2 & -> & _).
  unfold run_loop in R1, R2.
  eapply while_loop_alpha_mono; eassumption.
Qed.

Lemma loop_body_lifted (pmf : list F) (alpha : F) (st st' : state) :
  ltb (p_tail st) alpha = true -> loop_body pmf st = Return st' ->
  lifted alpha st'.
Proof.
  intros Hc Hbody. apply loop_body_Return in Hbody.
  destruct Hbody as (pb & pt & Jn & pJ & b & t & po & _ & _ & _ & _ & ->).
  unfold lifted. simpl. now exists (p_tail st).
Qed.

(** The mass picked in the pass after which the loop is left is not zero:
    adding a zero mass would have left [p_tail] below [alpha]. *)
Lemma while_loop_exit_mass (pmf : list F) (alpha : F) (fuel iters : nat)
    (st0 st : state) (k : nat) (p : F) :
  lifted alpha st0 ->
  while_loop pmf alpha fuel iters st0 = Exited st k ->
  p_J st = Mass p ->
  eqb p (of_int 0) = false /\ ltb (p_tail st) alpha = false.
Proof.
  intros H0 R HpJ.
  apply (while_loop_invariant _ alpha (lifted alpha)) in R.
  - destruct R as [HL Hc]. split; [| assumption].
    unfold lifted in HL. rewrite HpJ in HL.
    destruct HL as (prev & Hprev & Htail).
    destruct (eqb p (of_int 0)) eqn:Hz; [| reflexivity].
    rewrite Htail, (ltb_add_zero _ _ _ Hprev Hz) in Hc. discriminate.
  - intros s s' _ Hc Hbody. eapply loop_body_lifted; eassumption.
  - assumption.
Qed.

Lemma initial_lifted (alpha : F) (n : Z) : lifted alpha (initial_state n).
Proof. unfold lifted. simpl. trivial. Qed.

(** C8, as amended.  The builder never signals a numeric error.  Whenever
    it returns, the loop was left after a pass whose boundary mass [p_J] is
    not zero (a zero mass leaves [p_tail] below [alpha], so the loop goes
    on), and [gamma] is the quotient of [p_tail - alpha] by that mass: the
    division of line 77 is carried out, and never by zero. *)
Theorem final_boundary_mass_nonzero (N G n : Z) (alpha : F) :
  fisher_accept hypergeom_pmf N G n alpha <> Some (Raise NumericError) /\
  forall (I Jn : list Z) (g : F),
    fisher_accept hypergeom_pmf N G n alpha = Some (Return (I, Jn, g)) ->
    exists st k p,
      run_loop hypergeom_pmf N G n alpha = Exited st k /\
      p_J st = Mass p /\
      eqb p (of_int 0) = false /\
      ltb (p_tail st) alpha = false /\
      g = div (sub (p_tail st) alpha) p.
Proof.
  split.
  { intros H. apply fisher_accept_Raise in H.
    destruct H as [H | [H | H]]; discriminate. }
  intros I Jn g H. apply fisher_accept_Return in H.
  destruct H as (st & k & p & R & _ & _ & HpJ & Hg).
  exists st, k, p.
  destruct (while_loop_exit_mass _ _ _ _ _ _ _ _
              (initial_lifted alpha n) R HpJ) as [Hnz Hc].
  repeat split; assumption.
Qed.

(** C7, as amended.  The builder has no guard against exhaustion.  When a
    run reaches a state in which [bottom] exceeds [top] while
    [p_tail < alpha] still holds, it starts one more pass, and that pass
    raises [IndexError] (reading the mass array out of range) or
    [ValueError] (removing an outcome that is no longer in [posout]). *)
Theorem exhaustion_raises (N G n : Z) (alpha : F) (st : state) :
  reaches (pmf_vector hypergeom_pmf N G n) alpha (initial_state n) st ->
  top st < bottom st ->
  ltb (p_tail st) alpha = true ->
  fisher_accept hypergeom_pmf N G n alpha = Some (Raise IndexError) \/
  fisher_accept hypergeom_pmf N G n alpha = Some (Raise ValueError).
Proof.
  intros Hreach Hbt Hc.
  assert (Hpo : posout st = []).
  { apply reaches_ranged in Hreach; [| reflexivity].
    unfold ranged in Hreach. rewrite Hreach. apply np_arange_nil. lia. }
  destruct (run_loop_terminates hypergeom_pmf N G n alpha) as [Hend _].
  unfold fisher_accept. unfold run_loop in *.
  destruct (reaches_while_loop _ _ _ _ Hreach _ _ Hend) as (fuel & k & E).
  rewrite E in Hend |- *.
  destruct fuel as [| fuel]; [now elim Hend |].
  simpl. rewrite Hc.
  destruct (loop_body_exhausted (pmf_vector hypergeom_pmf N G n) st Hpo)
    as [-> | ->]; auto.
Qed.

(** C4, as amended.  [fisher_accept2] raises [AssertionError], before it
    computes anything, exactly when [N <= n] or [N <= G] (so for [G = 11],
    [N = 10]), and otherwise does what [fisher_accept] does;
    [fisher_accept] checks nothing and raises no assertion or domain
    error; neither checks the signs of [N], [G], [n] or the range of
    [alpha], and the only other exceptions are the [IndexError],
    [ValueError] and [ZeroDivisionError] of the computation itself. *)
Theorem fisher_accept2_guard (N G n : Z) (alpha : F) :
  (N <= n \/ N <= G ->
   fisher_accept2 hypergeom_pmf N G n alpha = Some (Raise AssertionError)) /\
  (n < N /\ G < N ->
   fisher_accept2 hypergeom_pmf N G n alpha =
   fisher_accept hypergeom_pmf N G n alpha) /\
  (forall e, fisher_accept hypergeom_pmf N G n alpha = Some (Raise e) ->
             e = IndexError \/ e = ValueError \/ e = ZeroDivisionError) /\
  (forall e, fisher_accept2 hypergeom_pmf N G n alpha = Some (Raise e) ->
             e = AssertionError \/ e = IndexError \/ e = ValueError \/
             e = ZeroDivisionError).
Proof.
  pose proof (fisher_accept_Raise hypergeom_pmf N G n alpha) as HR.
  unfold fisher_accept2.
  destruct (Z.gtb_spec N n), (Z.gtb_spec N G);
    (split; [| split; [| split]]);
    try exact HR; try (intros; lia); try reflexivity;
    try (intros e He; inversion He; tauto).
  intros e He. apply HR in He. tauto.
Qed.

End Builder.

(** *** The builder in exact arithmetic *)

Section Exact.

Variable hypergeom_pmf : Z -> Z -> Z -> Z -> Q.
Variables N G n : Z.

Let f (k : Z) : Q := hypergeom_pmf k N G n.

Lemma mass_of_arange_first (lo hi : Z) :
  lo < hi ->
  (mass_of f (np_arange lo hi) == f lo + mass_of f (np_arange (lo + 1) hi))%Q.
Proof.
  intros H. rewrite (np_arange_cons lo hi H). simpl. reflexivity.
Qed.

Lemma mass_of_app (l1 l2 : list Z) :
  (mass_of f (l1 ++ l2) == mass_of f l1 + mass_of f l2)%Q.
Proof.
  induction l1 as [| k l1 IH]; simpl; [lra |]. rewrite IH. lra.
Qed.

Lemma mass_of_arange_top (lo t : Z) :
  lo <= t ->
  (mass_of f (np_arange lo (t + 1))
   == mass_of f (np_arange lo (t - 1 + 1)) + f t)%Q.
Proof.
  intros H. rewrite (np_arange_snoc lo (t + 1)) by lia.
  rewrite mass_of_app. simpl.
  replace (t + 1 - 1) with t by lia.
  replace (t - 1 + 1) with t by lia. lra.
Qed.

Lemma next_state_accounted (st : state) :
  in_range n st -> bottom st <= top st ->
  accounted f n st ->
  accounted f n (next_state hypergeom_pmf N G n st).
Proof.
  intros (Hb & Ht & Hbt & Hpo) Hne [Hacc _].
  rewrite Hpo in Hacc.
  unfold accounted, next_state, select_boundary.
  fold (f (bottom st)). fold (f (top st)).
  destruct (ltb _ _); [| destruct (ltb _ _);
    [| destruct (Z.ltb_spec (bottom st) (top st))]]; simpl.
  - rewrite mass_of_arange_first in Hacc by lia. split; lra.
  - rewrite mass_of_arange_top in Hacc by lia. split; lra.
  - rewrite mass_of_arange_first, mass_of_arange_top in Hacc by lia.
    split; lra.
  - rewrite mass_of_arange_first in Hacc by lia. split; lra.
Qed.

Lemma initial_accounted : accounted f n (initial_state n).
Proof.
  unfold accounted. simpl. change (inject_Z 0) with 0%Q.
  split; [lra | trivial].
Qed.

Lemma loop_body_accounted (st st' : state) :
  in_range n st /\ accounted f n st ->
  loop_body (pmf_vector hypergeom_pmf N G n) st = Return st' ->
  in_range n st' /\ accounted f n st'.
Proof.
  intros [Hr Ha] Hbody.
  destruct (loop_body_Return_in_range _ _ _ _ _ _ Hr Hbody)
    as (Hne & -> & Hr').
  split; [assumption |]. now apply next_state_accounted.
Qed.

(** C2, as amended.  When the masses of the outcomes [0..n] add up to one
    and the builder returns [(I, J, gamma)], the mass of [I] plus [gamma]
    times the mass of [J] is [1 - alpha]: the test that accepts on [I],
    accepts with probability [gamma] on [J] and rejects elsewhere has
    level [alpha]. *)
Theorem acceptance_probability (alpha : Q) (I Jn : list Z) (gamma : Q) :
  (mass_of f (np_arange 0 (n + 1)) == 1)%Q ->
  fisher_accept hypergeom_pmf N G n alpha = Some (Return (I, Jn, gamma)) ->
  (mass_of f I + gamma * mass_of f Jn == 1 - alpha)%Q.
Proof.
  intros Htotal Hret.
  assert (Hn : 0 <= n).
  { destruct (Z_le_gt_dec 0 n) as [H | H]; [assumption | exfalso].
    rewrite np_arange_nil in Htotal by lia. simpl in Htotal. lra. }
  apply fisher_accept_Return in Hret.
  destruct Hret as (st & k & p & R & HI & HJ & HpJ & Hg).
  unfold run_loop in R.
  destruct (while_loop_exit_mass _ _ _ _ _ _ _ _
              (initial_lifted alpha n) R HpJ) as [Hnz _].
  apply (while_loop_invariant _ alpha
           (fun s => in_range n s /\ accounted f n s)) in R.
  - destruct R as [[_ [Hacc HJm]] _]. rewrite HpJ in HJm.
    subst I Jn gamma. rewrite Htotal in Hacc. rewrite <- HJm.
    simpl in Hnz. apply Qeq_bool_neq in Hnz. simpl.
    assert (E : ((p_tail st - alpha) / p * p == p_tail st - alpha)%Q)
      by (field; exact Hnz).
    rewrite E. lra.
  - intros s s' HP _ Hbody. eapply loop_body_accounted; eassumption.
  - split; [now apply initial_in_range | apply initial_accounted].
Qed.

(** C5.  With [n >= 0], a level strictly between zero and one, and masses
    that add up to one, the removal loop is left in the ordinary way,
    without an exception, after at least one and at most [n + 1]
    passes. *)
Theorem removal_loop_terminates (alpha : Q) :
  0 <= n -> (0 < alpha)%Q -> (alpha < 1)%Q ->
  (mass_of f (np_arange 0 (n + 1)) == 1)%Q ->
  exists st k,
    run_loop hypergeom_pmf N G n alpha = Exited st k /\
    (1 <= k)%nat /\ Z.of_nat k <= n + 1.
Proof.
  intros Hn Hpos Hlt Htotal.
  destruct (run_loop_terminates hypergeom_pmf N G n alpha) as [Hend Hk].
  unfold run_loop in *.
  destruct (while_loop _ _ _ _ _) as [| e k | st k] eqn:Hrun.
  - now elim Hend.
  - exfalso. revert Hrun.
    apply (while_loop_no_raise _ alpha
             (fun s => in_range n s /\ accounted f n s)).
    + intros s [Hr Ha] Hc.
      assert (Hne : bottom s <= top s).
      { destruct (Z_le_gt_dec (bottom s) (top s)) as [H | H];
          [assumption | exfalso].
        destruct Hr as (_ & _ & _ & Hpo), Ha as [Hacc _].
        rewrite Hpo, np_arange_nil, Htotal in Hacc by lia.
        simpl in Hacc, Hc. apply Qltb_lt in Hc. lra. }
      destruct (loop_body_in_range hypergeom_pmf N G n s Hr Hne)
        as [Hbody Hr'].
      eexists. split; [exact Hbody |].
      split; [assumption | now apply next_state_accounted].
    + split; [now apply initial_in_range | apply initial_accounted].
  - exists st, k. split; [reflexivity |]. simpl in Hk. split; [| lia].
    simpl in Hrun.
    assert (Hc : Qltb (inject_Z 0) alpha = true) by now apply Qltb_lt.
    rewrite Hc in Hrun.
    destruct (loop_body _ _) as [e | st1]; [discriminate |].
    apply while_loop_Exited_iters in Hrun. lia.
Qed.

End Exact.

(** *** Scenarios *)

(** C3.  In binary64, with the default level and the masses of the
    hypergeometric distribution rounded once, [fisher_accept(10, 2, 5)]
    returns [I = [1]], [J = [0, 2]] and [gamma = 0.8875000000000001], the
    value [test_1] expects. *)
Theorem fisher_accept_regular_case :
  fisher_accept_b64 10 2 5 0.05%float
  = Some (Return ([1], [0; 2], 0.8875000000000001%float)).
Proof. vm_compute. reflexivity. Qed.

(** The same call in exact arithmetic: [gamma] is [71/80]. *)
Lemma fisher_accept_regular_case_exact :
  exists g,
    fisher_accept_Q 10 2 5 (1 # 20) = Some (Return ([1], [0; 2], g)) /\
    (g == 71 # 80)%Q.
Proof. eexists. split; vm_compute; reflexivity. Qed.

Lemma tie_break_policy_witness :
  exists st',
    loop_body (pmf_vector (F := float) pmf_formula 10 2 5) (initial_state 5)
    = Return st' /\
    J st' = [5] /\ top st' = 4 /\ bottom st' = 0.
Proof.
  eexists. split; [vm_compute; reflexivity |].
  match goal with
  | |- J ?s = _ /\ _ =>
      assert (H : loop_body (pmf_vector (F := float) pmf_formula 10 2 5)
                    (initial_state 5) = Return s)
        by (vm_compute; reflexivity)
  end.
  destruct (tie_break_policy _ _ _ H)
    as (pb & pt & pJ & Hpb & Hpt & _ & Hgt & _).
  vm_compute in Hpb, Hpt. inversion Hpb; inversion Hpt; subst.
  destruct (Hgt eq_refl) as (HJ & _ & Hb & Ht).
  repeat split; assumption.
Defined.

(** C2 fails as stated: in the regular case the masses of [I] and of [J] are
    [5/9] and [4/9] and [gamma] is [71/80], so the mass of [I] plus
    [1 - gamma] times the mass of [J] is [109/180], not [19/20]. *)
Lemma rejection_weight_counterexample :
  exists g,
    fisher_accept_Q 10 2 5 (1 # 20) = Some (Return ([1], [0; 2], g)) /\
    (g == 71 # 80)%Q /\
    (mass_of (fun k => pmf_formula k 10 2 5) (np_arange 0 6) == 1)%Q /\
    (mass_of (fun k => pmf_formula k 10 2 5) [1%Z]
     + (1 - g) * mass_of (fun k => pmf_formula k 10 2 5) [0%Z; 2%Z]
     == 109 # 180)%Q /\
    ~ (mass_of (fun k => pmf_formula k 10 2 5) [1%Z]
       + (1 - g) * mass_of (fun k => pmf_formula k 10 2 5) [0%Z; 2%Z]
       == 1 - (1 # 20))%Q.
Proof.
  eexists. split; [vm_compute; reflexivity |].
  split; [vm_compute; reflexivity |].
  split; [vm_compute; reflexivity |].
  split; [vm_compute; reflexivity |].
  intros H. vm_compute in H. discriminate.
Qed.

Lemma acceptance_probability_witness :
  exists I Jn g,
    fisher_accept_Q 10 2 5 (1 # 20) = Some (Return (I, Jn, g)) /\
    (mass_of (fun k => pmf_formula k 10 2 5) I
     + g * mass_of (fun k => pmf_formula k 10 2 5) Jn
     == 1 - (1 # 20))%Q.
Proof.
  do 3 eexists. split; [vm_compute; reflexivity |].
  apply (acceptance_probability pmf_formula 10 2 5 (1 # 20)).
  - vm_compute. reflexivity.
  - vm_compute. reflexivity.
Defined.

Lemma removal_loop_terminates_witness :
  exists st k,
    run_loop (F := Q) pmf_formula 10 2 5 (1 # 20) = Exited st k /\
    (1 <= k)%nat /\ Z.of_nat k <= 5 + 1.
Proof.
  apply (removal_loop_terminates pmf_formula 10 2 5 (1 # 20)).
  - lia.
  - reflexivity.
  - reflexivity.
  - vm_compute. reflexivity.
Defined.

(** C4 fails as stated.  The input [N = 5], [G = 2], [n = 5] meets the
    preconditions, and [fisher_accept2] rejects it.  The levels [3/2] and [0]
    lie outside the unit interval, and nothing rejects them before the
    computation: with the first the loop runs until removing an outcome
    fails, with the second the loop is skipped and line 77 divides by the
    int [0].  And [fisher_accept] checks nothing: [n = -1] surfaces as the
    [IndexError] of the first array read. *)
Lemma validation_counterexample :
  fisher_accept2_Q 5 2 5 (1 # 20) = Some (Raise AssertionError) /\
  fisher_accept2_Q 10 2 5 (3 # 2) = Some (Raise ValueError) /\
  fisher_accept2_Q 10 2 5 0 = Some (Raise ZeroDivisionError) /\
  fisher_accept_Q 10 2 (-1) (1 # 20) = Some (Raise IndexError).
Proof. repeat split; vm_compute; reflexivity. Qed.

Lemma fisher_accept2_guard_witness :
  fisher_accept2_Q 10 11 6 (1 # 20) = Some (Raise AssertionError) /\
  fisher_accept2_Q 10 2 5 (1 # 20) = fisher_accept_Q 10 2 5 (1 # 20).
Proof.
  split.
  - apply (fisher_accept2_guard (F := Q) pmf_formula 10 11 6 (1 # 20)). lia.
  - apply (fisher_accept2_guard (F := Q) pmf_formula 10 2 5 (1 # 20)). lia.
Defined.

(** C6 fails in the direction its gloss gives: lowering the level from [1/2]
    to [1/20] turns the empty acceptance set into [[1]], so the acceptance
    set grows. *)
Lemma shrinking_counterexample :
  exists J1 g1 J2 g2,
    fisher_accept_Q 10 2 5 (1 # 20) = Some (Return ([1], J1, g1)) /\
    fisher_accept_Q 10 2 5 (1 # 2) = Some (Return ([], J2, g2)) /\
    (1 # 20 < 1 # 2)%Q /\
    ~ incl [1] ([] : list Z).
Proof.
  do 4 eexists. split; [vm_compute; reflexivity |].
  split; [vm_compute; reflexivity |].
  split; [reflexivity |].
  intros H. exact (H 1 (or_introl eq_refl)).
Qed.

Lemma acceptance_set_antitone_witness :
  exists I1 J1 g1 I2 J2 g2,
    fisher_accept_b64 10 2 5 0.05%float = Some (Return (I1, J1, g1)) /\
    fisher_accept_b64 10 2 5 0.5%float = Some (Return (I2, J2, g2)) /\
    incl I2 I1.
Proof.
  do 6 eexists. split; [vm_compute; reflexivity |].
  split; [vm_compute; reflexivity |].
  eapply (acceptance_set_antitone (F := float) pmf_formula 10 2 5
            0.05%float 0.5%float).
  - reflexivity.
  - vm_compute. reflexivity.
  - vm_compute. reflexivity.
Defined.

(** C7 fails as stated.  With [N = 1], [G = 0], [n = 0] the one outcome has
    mass one; for [alpha = 3/2] the first pass removes it, [bottom = 1]
    exceeds [top = 0], and the second pass reads [pmf[1]]: the builder
    raises [IndexError], not a construction error. *)
Lemma exhaustion_counterexample :
  exists st,
    reaches (pmf_vector (F := Q) pmf_formula 1 0 0) (3 # 2) (initial_state 0) st /\
    top st < bottom st /\
    ltb (p_tail st) (3 # 2) = true /\
    fisher_accept_Q 1 0 0 (3 # 2) = Some (Raise IndexError) /\
    fisher_accept_Q 1 0 0 (3 # 2) <> Some (Raise ConstructionError).
Proof.
  eexists. split.
  - eapply reaches_pass; [apply reaches_start | reflexivity |].
    vm_compute. reflexivity.
  - simpl. repeat split; try lia; try reflexivity. discriminate.
Qed.

Lemma exhaustion_raises_witness :
  fisher_accept_b64 1 0 0 1.5%float = Some (Raise IndexError) \/
  fisher_accept_b64 1 0 0 1.5%float = Some (Raise ValueError).
Proof.
  apply (exhaustion_raises (F := float) pmf_formula 1 0 0 1.5%float
           (mkState [] 1 0 [0] (Mass 1%float) 1%float)).
  - eapply reaches_pass; [apply reaches_start | reflexivity |].
    vm_compute. reflexivity.
  - simpl. lia.
  - reflexivity.
Defined.

(** C8 fails as stated: a boundary mass of zero never leads to a numeric
    error.  With [G = 0] all the mass is on the outcome [0]; for
    [alpha = 3/2] the seventh pass picks [J = [1]] with mass zero and then
    fails to remove it, which raises [ValueError].  For [alpha = 0] the loop
    is not entered, [p_J] is still the int [0], the division is attempted and
    the interpreter raises [ZeroDivisionError]. *)
Lemma zero_mass_counterexample :
  (exists st pb pt,
      reaches (pmf_vector (F := float) pmf_formula 10 0 5) 1.5%float
        (initial_state 5) st /\
      ltb (p_tail st) 1.5%float = true /\
      np_getitem (pmf_vector (F := float) pmf_formula 10 0 5) (bottom st)
      = Return pb /\
      np_getitem (pmf_vector (F := float) pmf_formula 10 0 5) (top st)
      = Return pt /\
      select_boundary (bottom st) (top st) pb pt = ([1], 0%float, 2, 0) /\
      fisher_accept_b64 10 0 5 1.5%float = Some (Raise ValueError)) /\
  run_loop (F := float) pmf_formula 10 2 5 0%float
  = Exited (initial_state 5) 0 /\
  fisher_accept_b64 10 2 5 0%float = Some (Raise ZeroDivisionError).
Proof.
  split; [| split; vm_compute; reflexivity].
  do 3 eexists. split.
  - do 6 (eapply reaches_first; [reflexivity | vm_compute; reflexivity |]).
    apply reaches_start.
  - repeat split; vm_compute; reflexivity.
Qed.

Lemma final_boundary_mass_nonzero_witness :
  exists st k p,
    run_loop (F := float) pmf_formula 10 2 5 0.05%float = Exited st k /\
    p_J st = Mass p /\
    eqb p (of_int 0) = false /\
    ltb (p_tail st) 0.05%float = false /\
    0.8875000000000001%float = div (sub (p_tail st) 0.05%float) p.
Proof.
  apply (proj2 (final_boundary_mass_nonzero (F := float) pmf_formula 10 2 5
                  0.05%float) [1] [0; 2]).
  vm_compute. reflexivity.
Defined.

End FisherFacts.

(** ** The three chi-square functions *)

Module ChiSqFacts.

Import ChiSq.

(** *** Distinct values *)

Lemma list_mem_In (v : Z) (l : list Z) : list_mem v l = true <-> In v l.
Proof.
  unfold list_mem. rewrite existsb_exists. split.
  - intros [w [Hw E]]. apply Z.eqb_eq in E. now subst.
  - intros H. exists v. split; [assumption | apply Z.eqb_refl].
Qed.

Lemma list_count_pos (l : list Z) (v : Z) : In v l -> 1 <= list_count l v.
Proof.
  intros H. unfold list_count.
  apply (count_occ_In Z.eq_dec) in H. lia.
Qed.

Lemma insert_unique_In (v a : Z) (l : list Z) :
  In a (insert_unique v l) <-> a = v \/ In a l.
Proof.
  induction l as [| w l IH]; simpl.
  - intuition.
  - destruct (Z.ltb_spec v w); [simpl; intuition |].
    destruct (Z.eqb_spec v w); simpl; [subst; intuition |].
    rewrite IH. intuition.
Qed.

Lemma insert_unique_sorted (v : Z) (l : list Z) :
  StronglySorted Z.lt l -> StronglySorted Z.lt (insert_unique v l).
Proof.
  induction 1 as [| w l Hs IH Hall]; simpl.
  - repeat constructor.
  - destruct (Z.ltb_spec v w).
    + constructor; [now constructor |].
      constructor; [assumption |].
      eapply Forall_impl; [| exact Hall]. intros a Ha. simpl in Ha. lia.
    + destruct (Z.eqb_spec v w); [now constructor |].
      constructor; [assumption |].
      apply Forall_forall. intros a Ha.
      apply insert_unique_In in Ha. destruct Ha as [-> | Ha]; [lia |].
      rewrite Forall_forall in Hall. now apply Hall.
Qed.

Lemma np_unique_In (z : list Z) (a : Z) : In a (np_unique z) <-> In a z.
Proof.
  unfold np_unique. induction z as [| v z IH]; simpl; [tauto |].
  rewrite insert_unique_In, IH. intuition.
Qed.

Lemma np_unique_sorted (z : list Z) : StronglySorted Z.lt (np_unique z).
Proof.
  unfold np_unique. induction z as [| v z IH]; simpl; [constructor |].
  now apply insert_unique_sorted.
Qed.

Lemma sorted_NoDup (l : list Z) : StronglySorted Z.lt l -> NoDup l.
Proof.
  induction 1 as [| w l Hs IH Hall]; constructor; [| assumption].
  intros Hin. rewrite Forall_forall in Hall. specialize (Hall w Hin). lia.
Qed.

Lemma np_unique_NoDup (z : list Z) : NoDup (np_unique z).
Proof. apply sorted_NoDup, np_unique_sorted. Qed.

(** The loop of lines 69-71, from any list [u] of distinct values. *)
Lemma first_occurrences_loop (z u : list Z) :
  NoDup u ->
  let u' := fold_left (fun u i => if list_mem i u then u else u ++ [i]) z u in
  NoDup u' /\ forall a, In a u' <-> In a u \/ In a z.
Proof.
  revert u. induction z as [| i z IH]; simpl; intros u Hu.
  - split; [assumption | tauto].
  - destruct (list_mem i u) eqn:Hmem.
    + destruct (IH u Hu) as [H1 H2]. split; [assumption |].
      intros a. rewrite H2. apply list_mem_In in Hmem.
      split; [tauto |]. intros [H | [<- | H]]; tauto.
    + assert (Hni : ~ In i u).
      { intros H. apply list_mem_In in H. congruence. }
      assert (Hu' : NoDup (u ++ [i])).
      { apply NoDup_app; [assumption | repeat constructor; intros [] |].
        intros a Ha [<- | []]. tauto. }
      destruct (IH (u ++ [i]) Hu') as [H1 H2]. split; [assumption |].
      intros a. rewrite H2, in_app_iff. simpl. tauto.
Qed.

Lemma first_occurrences_spec (z : list Z) :
  z <> [] ->
  exists u, first_occurrences z = Return u /\ NoDup u /\
            forall a, In a u <-> In a z.
Proof.
  destruct z as [| z0 z]; [congruence |]. intros _.
  eexists. split; [reflexivity |].
  destruct (first_occurrences_loop (z0 :: z) [z0]) as [H1 H2].
  { repeat constructor. intros []. }
  split; [exact H1 |].
  intros a. rewrite H2. simpl. tauto.
Qed.

Lemma unique_orders_agree (z u : list Z) :
  first_occurrences z = Return u -> Permutation (np_unique z) u.
Proof.
  intros H. assert (Hz : z <> []) by (intros ->; discriminate).
  destruct (first_occurrences_spec z Hz) as (u' & E & Hnd & Hin).
  rewrite E in H. inversion H; subst u'.
  apply NoDup_Permutation; [apply np_unique_NoDup | assumption |].
  intros a. now rewrite np_unique_In, Hin.
Qed.

(** *** Traversals *)

Lemma mapM_map_Return {A B C : Type} (f : B -> py C) (h : A -> B)
    (g : A -> C) (l : list A) :
  (forall a, In a l -> f (h a) = Return (g a)) ->
  mapM f (map h l) = Return (map g l).
Proof.
  induction l as [| a l IH]; simpl; intros H; [reflexivity |].
  rewrite (H a) by now left. simpl.
  rewrite IH by (intros b Hb; apply H; now right). reflexivity.
Qed.

Lemma combine_map_map {A B C : Type} (f : A -> B) (g : A -> C) (l : list A) :
  combine (map f l) (map g l) = map (fun a => (f a, g a)) l.
Proof. induction l as [| a l IH]; simpl; [reflexivity | now rewrite IH]. Qed.

(** *** Sums of rationals *)

Lemma fold_left_Qplus (l : list Q) (a : Q) :
  (fold_left Qplus l a == a + qsum l)%Q.
Proof.
  revert a. induction l as [| q l IH]; simpl; intros a; [lra |].
  rewrite IH. lra.
Qed.

Lemma qsum_map_ext {A : Type} (f g : A -> Q) (l : list A) :
  (forall a, In a l -> (f a == g a)%Q) ->
  (qsum (map f l) == qsum (map g l))%Q.
Proof.
  induction l as [| a l IH]; simpl; intros H; [reflexivity |].
  rewrite (H a) by now left.
  rewrite IH by (intros b Hb; apply H; now right). reflexivity.
Qed.

Lemma qsum_map_Permutation {A : Type} (f : A -> Q) (l l' : list A) :
  Permutation l l' -> (qsum (map f l) == qsum (map f l'))%Q.
Proof.
  induction 1 as [| a l l' _ IH | a b l | l l' l'' _ IH1 _ IH2]; simpl.
  - reflexivity.
  - now rewrite IH.
  - lra.
  - now rewrite IH1.
Qed.

(** In exact arithmetic nothing is a NaN, and [np.nansum] is the sum. *)
Lemma isnan_exact (t : Q) : isnan t = false.
Proof.
  unfold isnan. change (eqb t t) with (Qeq_bool t t).
  now rewrite Qeq_bool_refl.
Qed.

Lemma np_nansum_exact (l : list Q) : np_nansum l = py_sum l.
Proof.
  unfold np_nansum, py_sum. generalize (of_int (F := Q) 0).
  induction l as [| t l IH]; simpl; intros a; [reflexivity |].
  rewrite isnan_exact. apply IH.
Qed.

Lemma inject_Z_pos (z : Z) : 0 < z -> (0 < inject_Z z)%Q.
Proof. intros H. change 0%Q with (inject_Z 0). now rewrite <- Zlt_Qlt. Qed.

Lemma Qdiv_pos (a b : Q) : (0 < a)%Q -> (0 < b)%Q -> (0 < a / b)%Q.
Proof.
  intros Ha Hb. unfold Qdiv.
  apply Qmult_lt_0_compat; [assumption | now apply Qinv_lt_0_compat].
Qed.

Lemma py_div_nonzero (a b : Q) : ~ (b == 0)%Q -> py_div a b = Return (a / b)%Q.
Proof.
  intros H. unfold py_div. simpl.
  destruct (Qeq_bool b (inject_Z 0)) eqn:E; [| reflexivity].
  apply Qeq_bool_iff in E. now elim H.
Qed.

(** *** The statistic in exact arithmetic *)

Section Exact.

Variables x y : list Z.
Hypothesis x_nonempty : x <> [].

Let n := Z.of_nat (length x).
Let m := Z.of_nat (length y).
Let z := x ++ y.

Lemma n_pos : 0 < n.
Proof. subst n. destruct x; [congruence | simpl; lia]. Qed.

Lemma expected_1_pos (v : Z) : In v z -> (0 < expected_1 x y v)%Q.
Proof.
  intros Hv. unfold expected_1. pose proof n_pos as Hn. fold n m z.
  apply Qmult_lt_0_compat; [now apply inject_Z_pos |].
  apply Qdiv_pos; apply inject_Z_pos; [| lia].
  apply list_count_pos in Hv. lia.
Qed.

Lemma expected_3_pos (v : Z) : In v z -> (0 < expected_3 x y v)%Q.
Proof.
  intros Hv. unfold expected_3. pose proof n_pos as Hn. fold n m z.
  apply Qmult_lt_0_compat; [| now apply inject_Z_pos].
  apply Qdiv_pos; apply inject_Z_pos; [| lia].
  apply list_count_pos in Hv. lia.
Qed.

Lemma expected_agree (v : Z) : (expected_1 x y v == expected_3 x y v)%Q.
Proof.
  unfold expected_1, expected_3.
  rewrite (Z.add_comm (Z.of_nat (length y))). unfold Qdiv. ring.
Qed.

Lemma term_agree (v : Z) :
  In v z ->
  (term x (expected_1 x y v) v == term x (expected_3 x y v) v)%Q.
Proof.
  intros Hv. unfold term. now rewrite expected_agree.
Qed.

Lemma chisq_1_E_k_exact :
  chisq_1_E_k (F := Q) x y = Return (map (expected_1 x y) (np_unique z)).
Proof.
  unfold chisq_1_E_k. fold n m z.
  rewrite <- (map_id (np_unique z)) at 1.
  rewrite (mapM_map_Return _ (fun i => i)
             (fun i => (inject_Z (list_count z i) / inject_Z (m + n))%Q)).
  - simpl. now rewrite map_map.
  - intros a _. apply py_div_nonzero.
    pose proof n_pos. apply Qnot_eq_sym, Qlt_not_eq, inject_Z_pos. lia.
Qed.

Lemma chisq_3_E_k_exact (u : list Z) :
  first_occurrences z = Return u ->
  chisq_3_E_k (F := Q) x y = Return (map (expected_3 x y) u).
Proof.
  intros Hu. unfold chisq_3_E_k. fold n m z. rewrite Hu. simpl.
  rewrite <- (map_id u) at 1.
  rewrite (mapM_map_Return _ (fun i => i)
             (fun i => (inject_Z (list_count z i) / inject_Z (n + m))%Q)).
  - simpl. now rewrite map_map.
  - intros a _. apply py_div_nonzero.
    pose proof n_pos. apply Qnot_eq_sym, Qlt_not_eq, inject_Z_pos. lia.
Qed.

Lemma chisq_1_exact :
  chisq_1 (F := Q) x y
  = Return (py_sum (map (fun v => term x (expected_1 x y v) v) (np_unique z))).
Proof.
  unfold chisq_1. rewrite chisq_1_E_k_exact. fold z. simpl.
  rewrite combine_map_map.
  rewrite (mapM_map_Return _ _ (fun v => term x (expected_1 x y v) v)).
  - reflexivity.
  - intros v Hv. rewrite np_unique_In in Hv.
    apply py_div_nonzero, Qnot_eq_sym, Qlt_not_eq, expected_1_pos, Hv.
Qed.

Lemma chisq_2_exact :
  chisq_2 (F := Q) x y
  = py_sum (map (fun v => term x (expected_3 x y v) v) (np_unique z)).
Proof.
  unfold chisq_2, np_unique_counts. fold n m z.
  rewrite np_nansum_exact, !map_map, combine_map_map, map_map.
  reflexivity.
Qed.

Lemma accumulate_exact (u : list Z) :
  (forall v, In v u -> In v z) ->
  forall c : Q,
    accumulate c (map (fun v => (list_count x v, expected_3 x y v)) u)
    = Return (fold_left Qplus
                (map (fun v => term x (expected_3 x y v) v) u) c).
Proof.
  induction u as [| v u IH]; simpl; intros Hin c; [reflexivity |].
  rewrite py_div_nonzero.
  - simpl. apply IH. intros w Hw. apply Hin. now right.
  - apply Qnot_eq_sym, Qlt_not_eq, expected_3_pos, Hin. now left.
Qed.

Lemma chisq_3_exact (u : list Z) :
  first_occurrences z = Return u ->
  chisq_3 (F := Q) x y
  = Return (py_sum (map (fun v => term x (expected_3 x y v) v) u)).
Proof.
  intros Hu. unfold chisq_3. rewrite (chisq_3_E_k_exact u Hu).
  fold z. rewrite Hu. simpl. rewrite combine_map_map.
  apply accumulate_exact.
  assert (Hz : z <> []) by (intros E; rewrite E in Hu; discriminate).
  destruct (first_occurrences_spec z Hz) as (u' & E & _ & Hin).
  rewrite E in Hu. inversion Hu; subst u'. intros v Hv. now apply Hin.
Qed.

End Exact.

(** With an empty first sample every expected count is zero, and [chisq_1]
    stops at its first division; with two empty samples [chisq_3] stops at
    [z[0]]. *)
Lemma chisq_1_empty_sample (y : list Z) :
  y <> [] -> chisq_1 (F := Q) [] y = Raise ZeroDivisionError.
Proof.
  intros Hy. unfold chisq_1, chisq_1_E_k. simpl app. simpl length.
  rewrite <- (map_id (np_unique y)) at 1.
  rewrite (mapM_map_Return _ (fun i => i)
             (fun i => (inject_Z (list_count y i)
                        / inject_Z (Z.of_nat (length y) + Z.of_nat 0))%Q)).
  - simpl bind. rewrite map_map, combine_map_map.
    destruct (np_unique y) as [| v u] eqn:Hu.
    + destruct y as [| a y]; [congruence |].
      assert (H : In a (np_unique (a :: y))) by (apply np_unique_In; now left).
      rewrite Hu in H. destruct H.
    + simpl. reflexivity.
  - intros a _. apply py_div_nonzero.
    apply Qnot_eq_sym, Qlt_not_eq, inject_Z_pos.
    destruct y; [congruence | simpl; lia].
Qed.

(** C9, as amended.  In exact arithmetic, whenever [chisq_1] and [chisq_3]
    return ([chisq_2] always does), the three values are the same rational
    number: the same terms, summed over the distinct values in increasing
    order by [chisq_1] and [chisq_2] and in the order of first occurrence by
    [chisq_3]. *)
Theorem chisq_variants_agree (x y : list Z) (v1 v3 : Q) :
  chisq_1 x y = Return v1 ->
  chisq_3 x y = Return v3 ->
  (v1 == chisq_2 x y)%Q /\ (v1 == v3)%Q.
Proof.
  intros H1 H3.
  assert (Hx : x <> []).
  { intros ->. destruct y as [| a y]; [discriminate H3 |].
    rewrite chisq_1_empty_sample in H1; discriminate. }
  assert (Hz : x ++ y <> []) by (destruct x; [congruence | discriminate]).
  destruct (first_occurrences_spec _ Hz) as (u & Hu & Hnd & Hin).
  rewrite (chisq_1_exact x y Hx) in H1. inversion H1; subst v1.
  rewrite (chisq_3_exact x y Hx u Hu) in H3. inversion H3; subst v3.
  rewrite (chisq_2_exact x y). unfold py_sum.
  rewrite !fold_left_Qplus.
  assert (E : (qsum (map (fun v => term x (expected_1 x y v) v)
                       (np_unique (x ++ y)))
               == qsum (map (fun v => term x (expected_3 x y v) v)
                         (np_unique (x ++ y))))%Q).
  { apply qsum_map_ext. intros v Hv. rewrite np_unique_In in Hv.
    now apply term_agree. }
  split.
  - now rewrite E.
  - rewrite E.
    rewrite (qsum_map_Permutation _ _ _ (unique_orders_agree _ _ Hu)).
    reflexivity.
Qed.

(** The three functions are defined together exactly on a non-empty first
    sample. *)
Lemma chisq_defined (x y : list Z) :
  x <> [] ->
  exists v1 v3, chisq_1 (F := Q) x y = Return v1 /\
                chisq_3 (F := Q) x y = Return v3.
Proof.
  intros Hx.
  assert (Hz : x ++ y <> []) by (destruct x; [congruence | discriminate]).
  destruct (first_occurrences_spec _ Hz) as (u & Hu & _).
  do 2 eexists. split.
  - apply chisq_1_exact, Hx.
  - apply (chisq_3_exact x y Hx u Hu).
Qed.

(** C9 fails as stated in binary64: the two orders of summation round
    differently.  For [x = [7, 7, 1, 3, 2]] and [y = [2, 2, 2, 5, 6, 1]] the
    terms are added in the order of the values 1, 2, 3, 5, 6, 7 by [chisq_1]
    and 7, 1, 3, 2, 5, 6 by [chisq_3]; the first sum is [3.25], the second
    [3.2499999999999996]. *)
Lemma summation_order_counterexample :
  chisq_1 (F := float) [7; 7; 1; 3; 2] [2; 2; 2; 5; 6; 1]
  = Return 3.25%float /\
  chisq_3 (F := float) [7; 7; 1; 3; 2] [2; 2; 2; 5; 6; 1]
  = Return 3.2499999999999996%float /\
  PrimFloat.eqb 3.25%float 3.2499999999999996%float = false.
Proof. repeat split; vm_compute; reflexivity. Qed.

Lemma chisq_variants_agree_witness :
  exists v1 v3,
    chisq_1 (F := Q) fixtest_x fixtest_y = Return v1 /\
    chisq_3 (F := Q) fixtest_x fixtest_y = Return v3 /\
    (v1 == 143 # 100)%Q /\
    (v1 == chisq_2 fixtest_x fixtest_y)%Q /\ (v1 == v3)%Q.
Proof.
  do 2 eexists.
  split; [vm_compute; reflexivity |].
  split; [vm_compute; reflexivity |].
  split; [vm_compute; reflexivity |].
  apply (chisq_variants_agree fixtest_x fixtest_y); vm_compute; reflexivity.
Defined.

(** C10.  For a non-empty [x], the expected counts [E_k] that [chisq_1] and
    [chisq_3] compute are all strictly positive, and neither function
    divides by zero: both return. *)
Theorem expected_counts_positive (x y : list Z) :
  x <> [] ->
  (exists E1, chisq_1_E_k (F := Q) x y = Return E1 /\
              Forall (fun e => 0 < e)%Q E1) /\
  (exists E3, chisq_3_E_k (F := Q) x y = Return E3 /\
              Forall (fun e => 0 < e)%Q E3) /\
  (exists v1, chisq_1 (F := Q) x y = Return v1) /\
  (exists v3, chisq_3 (F := Q) x y = Return v3).
Proof.
  intros Hx.
  assert (Hz : x ++ y <> []) by (destruct x; [congruence | discriminate]).
  destruct (first_occurrences_spec _ Hz) as (u & Hu & _ & Hin).
  destruct (chisq_defined x y Hx) as (v1 & v3 & H1 & H3).
  split; [| split; [| split; eauto]].
  - eexists. split; [apply chisq_1_E_k_exact, Hx |].
    apply Forall_forall. intros e He. apply in_map_iff in He.
    destruct He as (v & <- & Hv). rewrite np_unique_In in Hv.
    now apply expected_1_pos.
  - eexists. split; [apply (chisq_3_E_k_exact x y Hx u Hu) |].
    apply Forall_forall. intros e He. apply in_map_iff in He.
    destruct He as (v & <- & Hv). apply Hin in Hv.
    now apply expected_3_pos.
Qed.

Lemma expected_counts_positive_witness :
  (exists E1, chisq_1_E_k (F := Q) fixtest_x fixtest_y = Return E1 /\
              Forall (fun e => 0 < e)%Q E1) /\
  (exists E3, chisq_3_E_k (F := Q) fixtest_x fixtest_y = Return E3 /\
              Forall (fun e => 0 < e)%Q E3) /\
  (exists v1, chisq_1 (F := Q) fixtest_x fixtest_y = Return v1) /\
  (exists v3, chisq_3 (F := Q) fixtest_x fixtest_y = Return v3).
Proof.
  apply (expected_counts_positive fixtest_x fixtest_y). discriminate.
Defined.

End ChiSqFacts.

(** ** Further properties of the builder *)

Module FisherMore.

Import Fisher FisherFacts.

Section Builder.

Context {F : Type} {PF : PyFloat F}.
Variable hypergeom_pmf : Z -> Z -> Z -> Z -> F.

Lemma next_state_bordering (N G n : Z) (st : state) :
  in_range n st -> bottom st <= top st ->
  bordering n (next_state hypergeom_pmf N G n st).
Proof.
  intros (Hb & Ht & Hbt & Hpo) Hne.
  unfold bordering, next_state, select_boundary.
  destruct (ltb _ _); [| destruct (ltb _ _);
    [| destruct (Z.ltb_spec (bottom st) (top st))]]; simpl.
  - left. split; [f_equal |]; lia.
  - right. left. split; [f_equal |]; lia.
  - right. right. split; [| lia].
    f_equal; [| f_equal]; lia.
  - left. split; [f_equal |]; lia.
Qed.

(** Without a positive level the loop is skipped, and with no outcome the
    first array read fails. *)
Lemma fisher_accept_skipped (N G n : Z) (alpha : F) :
  ltb (of_int 0) alpha = false ->
  fisher_accept hypergeom_pmf N G n alpha = Some (Raise ZeroDivisionError).
Proof.
  intros Hc. unfold fisher_accept, run_loop. simpl. rewrite Hc. reflexivity.
Qed.

Lemma fisher_accept_no_outcome (N G n : Z) (alpha : F) :
  ltb (of_int 0) alpha = true -> n < 0 ->
  fisher_accept hypergeom_pmf N G n alpha = Some (Raise IndexError).
Proof.
  intros Hc Hn. unfold fisher_accept, run_loop, pmf_vector, initial_state.
  rewrite np_arange_nil by lia. simpl. rewrite Hc. reflexivity.
Qed.

(** X4.  The degenerate inputs of [fisher_accept], in every arithmetic.  A
    level that is not above zero (zero, negative, NaN) skips the loop, and
    line 77 divides by the int [0]: [ZeroDivisionError].  With a level above
    zero and a negative [n] the outcome space is empty and the first read of
    [pmf] raises [IndexError]. *)
Theorem degenerate_inputs (N G n : Z) (alpha : F) :
  (ltb (of_int 0) alpha = false ->
   fisher_accept hypergeom_pmf N G n alpha = Some (Raise ZeroDivisionError)) /\
  (ltb (of_int 0) alpha = true -> n < 0 ->
   fisher_accept hypergeom_pmf N G n alpha = Some (Raise IndexError)).
Proof.
  split; [apply fisher_accept_skipped | apply fisher_accept_no_outcome].
Qed.

Lemma fisher_accept_Return_nonneg (N G n : Z) (alpha : F) I Jn g :
  fisher_accept hypergeom_pmf N G n alpha = Some (Return (I, Jn, g)) ->
  0 <= n.
Proof.
  intros H. destruct (Z_le_gt_dec 0 n) as [Hn | Hn]; [assumption | exfalso].
  destruct (ltb (of_int 0) alpha) eqn:Hc.
  - rewrite fisher_accept_no_outcome in H by (assumption || lia).
    discriminate.
  - rewrite fisher_accept_skipped in H by assumption. discriminate.
Qed.

(** X1.  The shape of a result, in every arithmetic.  When [fisher_accept]
    returns [(I, J, gamma)], [I] is a run of consecutive integers
    [b, ..., t] inside [0..n] (empty when [b = t + 1]), and [J] is the
    outcome just below it, the outcome just above it, or both in increasing
    order; so [J] has one or two elements, lies in [0..n], and shares no
    outcome with [I]. *)
Theorem result_shape (N G n : Z) (alpha : F) (I Jn : list Z) (g : F) :
  fisher_accept hypergeom_pmf N G n alpha = Some (Return (I, Jn, g)) ->
  exists b t,
    0 <= b /\ t <= n /\ b <= t + 1 /\
    I = np_arange b (t + 1) /\
    (Jn = [b - 1] \/ Jn = [t + 1] \/ (Jn = [b - 1; t + 1] /\ b - 1 < t + 1)) /\
    (forall j, In j Jn -> 0 <= j <= n /\ ~ In j I).
Proof.
  intros H. pose proof (fisher_accept_Return_nonneg _ _ _ _ _ _ _ H) as Hn.
  apply fisher_accept_Return in H.
  destruct H as (st & k & p & R & -> & -> & HpJ & _).
  unfold run_loop in R.
  apply (while_loop_invariant _ alpha
           (fun s => in_range n s /\ (p_J s = IntZero \/ bordering n s))) in R.
  - destruct R as [[Hr [Hz | Hbd]] _]; [congruence |].
    destruct Hr as (Hb & Ht & Hbt & Hpo).
    exists (bottom st), (top st).
    repeat (split; [assumption |]).
    rewrite Hpo.
    destruct Hbd as [[-> Hb1] | [[-> Ht1] | (-> & Hb1 & Ht1 & Hlt)]].
    + split; [now left |]. intros j [<- | []].
      rewrite np_arange_In. lia.
    + split; [right; now left |]. intros j [<- | []].
      rewrite np_arange_In. lia.
    + split; [right; right; now split |]. intros j [<- | [<- | []]];
        rewrite np_arange_In; lia.
  - intros s s' [Hr _] _ Hbody.
    destruct (loop_body_Return_in_range _ _ _ _ _ _ Hr Hbody)
      as (Hne & -> & Hr').
    split; [assumption |]. right. now apply next_state_bordering.
  - split; [now apply initial_in_range | now left].
Qed.

(** What the last pass leaves behind when the builder returns. *)
Lemma fisher_accept_Return_lifted (N G n : Z) (alpha : F) I Jn g :
  fisher_accept hypergeom_pmf N G n alpha = Some (Return (I, Jn, g)) ->
  exists st k p prev,
    run_loop hypergeom_pmf N G n alpha = Exited st k /\
    I = posout st /\ Jn = J st /\ p_J st = Mass p /\
    ltb prev alpha = true /\ p_tail st = add prev p /\
    ltb (p_tail st) alpha = false /\
    g = div (sub (p_tail st) alpha) p.
Proof.
  intros H. apply fisher_accept_Return in H.
  destruct H as (st & k & p & R & HI & HJ & HpJ & Hg).
  pose proof R as R'. unfold run_loop in R'.
  apply (while_loop_invariant _ alpha (lifted alpha)) in R'.
  - destruct R' as [HL Hc]. unfold lifted in HL. rewrite HpJ in HL.
    destruct HL as (prev & Hprev & Htail).
    exists st, k, p, prev. repeat split; assumption.
  - intros s s' _ Hc Hbody. eapply loop_body_lifted; eassumption.
  - apply initial_lifted.
Qed.

(** X6.  [test_2] fails, whatever the arithmetic and the supplier: with
    [G = 11 > N = 10] the second assertion of [fisher_accept2] raises, and
    the test turns exactly that exception into a failure. *)
Theorem test_2_fails (alpha_default : F) :
  test_2 hypergeom_pmf alpha_default = Some Failed.
Proof. reflexivity. Qed.

End Builder.

Section Exact.

Variable hypergeom_pmf : Z -> Z -> Z -> Z -> Q.
Variables N G n : Z.

Let f (k : Z) : Q := hypergeom_pmf k N G n.

(** X2.  In exact arithmetic, whatever the masses, a returned [gamma] lies
    in the half-open interval from zero to one: zero exactly when [p_tail]
    lands on [alpha], and never one. *)
Theorem gamma_range (alpha : Q) (I Jn : list Z) (gamma : Q) :
  fisher_accept hypergeom_pmf N G n alpha = Some (Return (I, Jn, gamma)) ->
  (0 <= gamma)%Q /\ (gamma < 1)%Q /\
  (gamma == 0 <->
   exists st k, run_loop hypergeom_pmf N G n alpha = Exited st k /\
                p_tail st == alpha)%Q.
Proof.
  intros H. apply fisher_accept_Return_lifted in H.
  destruct H as (st & k & p & prev & R & _ & _ & _ & Hprev & Htail & Hc & ->).
  simpl in Hprev, Htail, Hc. apply Qltb_lt in Hprev. apply Qltb_ge in Hc.
  rewrite Htail in *. simpl.
  assert (Hp : (0 < p)%Q) by lra.
  split; [| split].
  - apply Qle_shift_div_l; [assumption | lra].
  - apply Qlt_shift_div_r; [assumption | lra].
  - split.
    + intros Hz. exists st, k. split; [assumption |]. rewrite Htail.
      assert (E : ((prev + p - alpha) / p * p == prev + p - alpha)%Q)
        by (field; lra).
      rewrite Hz in E. lra.
    + intros (st' & k' & R' & Heq). rewrite R in R'. inversion R'; subst st'.
      rewrite Htail in Heq.
      assert (E : (prev + p - alpha == 0)%Q) by lra.
      rewrite E. unfold Qdiv. ring.
Qed.

Lemma mass_of_nonneg (l : list Z) :
  (forall k, In k l -> (0 <= f k)%Q) -> (0 <= mass_of f l)%Q.
Proof.
  induction l as [| k l IH]; simpl; intros H; [lra |].
  pose proof (H k (or_introl eq_refl)).
  assert (0 <= mass_of f l)%Q by (apply IH; intros; apply H; now right).
  lra.
Qed.

(** X3.  In exact arithmetic, with masses that add up to one, the returned
    sets bracket the level: the mass of [I] is at most [1 - alpha], and the
    mass of [I] and [J] together is more than [1 - alpha].  So the test that
    accepts on the union of [I] and [J], as the docstring proposes, is
    conservative, and the one that accepts on [I] alone is not. *)
Theorem conservative_region (alpha : Q) (I Jn : list Z) (gamma : Q) :
  (mass_of f (np_arange 0 (n + 1)) == 1)%Q ->
  fisher_accept hypergeom_pmf N G n alpha = Some (Return (I, Jn, gamma)) ->
  (mass_of f I <= 1 - alpha)%Q /\ (1 - alpha < mass_of f I + mass_of f Jn)%Q.
Proof.
  intros Htotal H.
  pose proof (fisher_accept_Return_nonneg _ _ _ _ _ _ _ _ H) as Hn.
  apply fisher_accept_Return_lifted in H.
  destruct H as (st & k & p & prev & R & -> & -> & HpJ & Hprev & Htail & Hc & _).
  unfold run_loop in R.
  apply (while_loop_invariant _ alpha
           (fun s => in_range n s /\ accounted f n s)) in R.
  - destruct R as [[_ [Hacc HJm]] _]. rewrite HpJ in HJm.
    simpl in Hprev, Htail, Hc. apply Qltb_lt in Hprev. apply Qltb_ge in Hc.
    rewrite Htotal in Hacc. rewrite Htail in *. lra.
  - intros s s' HP _ Hbody. eapply loop_body_accounted; eassumption.
  - split; [now apply initial_in_range | apply initial_accounted].
Qed.

(** X5.  In exact arithmetic, with masses that are not negative, a level
    above the total mass of the outcomes (so any level above one for a
    probability distribution) makes the builder raise [IndexError] or
    [ValueError]: the loop removes every outcome and starts a further
    pass. *)
Theorem level_above_total_mass (alpha : Q) :
  0 <= n ->
  (forall k, 0 <= k <= n -> (0 <= f k)%Q) ->
  (mass_of f (np_arange 0 (n + 1)) < alpha)%Q ->
  fisher_accept hypergeom_pmf N G n alpha = Some (Raise IndexError) \/
  fisher_accept hypergeom_pmf N G n alpha = Some (Raise ValueError).
Proof.
  intros Hn Hf Hlt.
  destruct (run_loop_terminates hypergeom_pmf N G n alpha) as [Hend _].
  unfold fisher_accept. unfold run_loop in *.
  destruct (while_loop _ _ _ _ _) as [| e k | st k] eqn:Hrun.
  - now elim Hend.
  - apply while_loop_Raised in Hrun. destruct Hrun as [-> | ->]; auto.
  - exfalso.
    apply (while_loop_invariant _ alpha
             (fun s => in_range n s /\ accounted f n s)) in Hrun.
    + destruct Hrun as [[(Hb & Ht & Hbt & Hpo) [Hacc _]] Hc].
      simpl in Hc. apply Qltb_ge in Hc.
      assert (Hm : (0 <= mass_of f (posout st))%Q).
      { apply mass_of_nonneg. intros j Hj. rewrite Hpo in Hj.
        apply np_arange_In in Hj. apply Hf. lia. }
      lra.
    + intros s s' HP _ Hbody. eapply loop_body_accounted; eassumption.
    + split; [now apply initial_in_range | apply initial_accounted].
Qed.

End Exact.

Lemma degenerate_inputs_witness :
  fisher_accept_b64 10 2 5 0%float = Some (Raise ZeroDivisionError) /\
  fisher_accept_b64 10 2 (-1) 0.05%float = Some (Raise IndexError).
Proof.
  split.
  - apply (degenerate_inputs (F := float) pmf_formula 10 2 5 0%float).
    reflexivity.
  - apply (degenerate_inputs (F := float) pmf_formula 10 2 (-1) 0.05%float).
    + reflexivity.
    + lia.
Defined.

Lemma result_shape_witness :
  exists b t,
    0 <= b /\ t <= 5 /\ b <= t + 1 /\
    [1] = np_arange b (t + 1) /\
    ([0; 2] = [b - 1] \/ [0; 2] = [t + 1] \/
     ([0; 2] = [b - 1; t + 1] /\ b - 1 < t + 1)) /\
    (forall j, In j [0; 2] -> 0 <= j <= 5 /\ ~ In j [1]).
Proof.
  apply (result_shape (F := float) pmf_formula 10 2 5 0.05%float
           [1] [0; 2] 0.8875000000000001%float).
  vm_compute. reflexivity.
Defined.

Lemma gamma_range_witness :
  exists g,
    fisher_accept_Q 10 2 5 (1 # 20) = Some (Return ([1], [0; 2], g)) /\
    (0 <= g)%Q /\ (g < 1)%Q.
Proof.
  eexists. split; [vm_compute; reflexivity |].
  match goal with
  | |- (0 <= ?g)%Q /\ _ =>
      destruct (gamma_range pmf_formula 10 2 5 (1 # 20) [1] [0; 2] g)
        as (H1 & H2 & _)
  end.
  - vm_compute. reflexivity.
  - split; assumption.
Defined.

Lemma conservative_region_witness :
  (mass_of (fun k => pmf_formula k 10 2 5) [1%Z] <= 1 - (1 # 20))%Q /\
  (1 - (1 # 20) < mass_of (fun k => pmf_formula k 10 2 5) [1%Z]
                  + mass_of (fun k => pmf_formula k 10 2 5) [0%Z; 2%Z])%Q.
Proof.
  eapply (conservative_region pmf_formula 10 2 5 (1 # 20) [1] [0; 2]).
  - vm_compute. reflexivity.
  - vm_compute. reflexivity.
Defined.

Lemma level_above_total_mass_witness :
  fisher_accept_Q 10 2 5 (3 # 2) = Some (Raise IndexError) \/
  fisher_accept_Q 10 2 5 (3 # 2) = Some (Raise ValueError).
Proof.
  apply (level_above_total_mass pmf_formula 10 2 5 (3 # 2)).
  - lia.
  - intros k Hk.
    assert (E : k = 0 \/ k = 1 \/ k = 2 \/ k = 3 \/ k = 4 \/ k = 5) by lia.
    destruct E as [-> | [-> | [-> | [-> | [-> | ->]]]]];
      vm_compute; discriminate.
  - reflexivity.
Defined.

End FisherMore.

(** ** Further properties of the chi-square functions *)

Module ChiSqMore.

Import ChiSq ChiSqFacts.

(** *** The loop of lines 68-71 *)

Lemma list_mem_app (b : Z) (u v : list Z) :
  list_mem b (u ++ v) = list_mem b u || list_mem b v.
Proof. unfold list_mem. apply existsb_app. Qed.

Lemma filter_twice {A : Type} (f g : A -> bool) (l : list A) :
  filter f (filter g l) = filter (fun b => f b && g b) l.
Proof.
  induction l as [| a l IH]; simpl; [reflexivity |].
  destruct (g a); simpl.
  - rewrite andb_true_r. destruct (f a); now rewrite IH.
  - now rewrite andb_false_r.
Qed.

Lemma first_occurrences_fold (z u : list Z) :
  fold_left (fun u i => if list_mem i u then u else u ++ [i]) z u
  = u ++ filter (fun b => negb (list_mem b u)) (keep_first z).
Proof.
  revert u. induction z as [| a z IH]; intros u.
  - simpl. now rewrite app_nil_r.
  - cbn [fold_left keep_first filter].
    destruct (list_mem a u) eqn:Hmem; cbn [negb].
    + rewrite IH. f_equal. rewrite filter_twice.
      apply filter_ext_in. intros b _.
      destruct (Z.eqb_spec b a) as [-> | Hne]; cbn [negb].
      * now rewrite Hmem.
      * now rewrite andb_true_r.
    + rewrite IH, <- app_assoc. cbn [app]. do 2 f_equal.
      rewrite filter_twice. apply filter_ext. intros b.
      rewrite list_mem_app. unfold list_mem at 2. cbn [existsb].
      now rewrite orb_false_r, negb_orb.
Qed.

(** X13.  The loop that [chisq_3] uses to collect the distinct values
    (start from [[z[0]]], append every value not seen yet) returns each
    value of [z] once, at the place of its first occurrence: it computes
    [keep_first z].  On an empty [z] it raises [IndexError]. *)
Theorem first_occurrences_keep_first (z : list Z) :
  (z <> [] -> first_occurrences z = Return (keep_first z)) /\
  (z = [] -> first_occurrences z = Raise IndexError).
Proof.
  split.
  - destruct z as [| z0 z]; [congruence |]. intros _.
    unfold first_occurrences. rewrite first_occurrences_fold.
    cbn [keep_first filter list_mem existsb app].
    rewrite Z.eqb_refl. cbn [orb negb]. do 2 f_equal.
    rewrite filter_twice. apply filter_ext. intros b.
    rewrite orb_false_r. now destruct (b =? z0).
  - intros ->. reflexivity.
Qed.

Lemma first_occurrences_keep_first_witness :
  first_occurrences (fixtest_x ++ fixtest_y) = Return [1; 2; 3; 4; 5] /\
  first_occurrences [7; 7; 1; 3; 2; 2; 2; 2; 5; 6; 1]
  = Return [7; 1; 3; 2; 5; 6].
Proof.
  split.
  - apply (first_occurrences_keep_first (fixtest_x ++ fixtest_y)).
    discriminate.
  - apply (first_occurrences_keep_first [7; 7; 1; 3; 2; 2; 2; 2; 5; 6; 1]).
    discriminate.
Defined.

(** *** Exceptions *)

Section Exceptions.

Context {F : Type} {PF : PyFloat F}.

Lemma py_div_Raise (a b : F) (e : exn) :
  py_div a b = Raise e -> e = ZeroDivisionError.
Proof.
  unfold py_div. destruct (eqb b (of_int 0)); intros H; now inversion H.
Qed.

Lemma mapM_Raise {A B : Type} (f : A -> py B) (P : exn -> Prop) (l : list A)
    (e : exn) :
  (forall a e', f a = Raise e' -> P e') -> mapM f l = Raise e -> P e.
Proof.
  intros Hf. induction l as [| a l IH]; simpl; [discriminate |].
  destruct (f a) as [e1 | b] eqn:Ha; simpl.
  - intros H. inversion H; subst. eapply Hf, Ha.
  - destruct (mapM f l) as [e1 | bs]; simpl; intros H; [| discriminate].
    inversion H; subst. now apply IH.
Qed.

Lemma accumulate_Raise (l : list (Z * F)) (c : F) (e : exn) :
  accumulate c l = Raise e -> e = ZeroDivisionError.
Proof.
  revert c. induction l as [| [o e1] l IH]; simpl; intros c; [discriminate |].
  destruct (py_div _ e1) as [e2 | t] eqn:Hd; simpl.
  - intros H. inversion H; subst. eapply py_div_Raise, Hd.
  - apply IH.
Qed.

(** X12.  The exceptions of the three functions, in every arithmetic.
    [chisq_1] raises nothing but [ZeroDivisionError]; [chisq_3] raises
    [IndexError] exactly when both samples are empty, and otherwise nothing
    but [ZeroDivisionError]. *)
Theorem chisq_exceptions (x y : list Z) :
  (forall e, chisq_1 x y = Raise e -> e = ZeroDivisionError) /\
  (chisq_3 x y = Raise IndexError <-> x = [] /\ y = []) /\
  (forall e, chisq_3 x y = Raise e ->
             e = IndexError \/ e = ZeroDivisionError).
Proof.
  assert (H3 : forall e, chisq_3 x y = Raise e ->
                         (e = IndexError /\ x ++ y = []) \/
                         e = ZeroDivisionError).
  { intros e. unfold chisq_3, chisq_3_E_k.
    destruct (x ++ y) as [| z0 z] eqn:Hz.
    { simpl. intros H. inversion H. now left. }
    unfold first_occurrences. simpl bind.
    destruct (mapM _ _) as [e1 | p] eqn:Hp; simpl.
    - intros H. inversion H; subst. right.
      eapply (mapM_Raise _ (fun e => e = ZeroDivisionError)); [| exact Hp].
      intros a e'. apply py_div_Raise.
    - intros H. right. eapply accumulate_Raise, H. }
  split; [| split].
  - intros e. unfold chisq_1, chisq_1_E_k.
    destruct (mapM _ (np_unique (x ++ y))) as [e1 | p] eqn:Hp; simpl.
    + intros H. inversion H; subst.
      eapply (mapM_Raise _ (fun e => e = ZeroDivisionError)); [| exact Hp].
      intros a e'. apply py_div_Raise.
    + destruct (mapM _ (combine _ _)) as [e1 | ts] eqn:Ht; simpl;
        intros H; [| discriminate].
      inversion H; subst.
      eapply (mapM_Raise _ (fun e => e = ZeroDivisionError)); [| exact Ht].
      intros [o e0] e'. apply py_div_Raise.
  - split.
    + intros H. destruct (H3 _ H) as [[_ Hz] | Hd]; [| discriminate].
      now apply app_eq_nil in Hz.
    + intros [-> ->]. reflexivity.
  - intros e H. destruct (H3 _ H) as [[-> _] | ->]; auto.
Qed.

End Exceptions.

Lemma chisq_exceptions_witness :
  chisq_3 (F := float) [] [] = Raise IndexError.
Proof.
  apply (chisq_exceptions (F := float) [] []). split; reflexivity.
Defined.

(** *** Reordering the samples *)

Lemma sorted_same_elements (l l' : list Z) :
  StronglySorted Z.lt l -> StronglySorted Z.lt l' ->
  (forall a, In a l <-> In a l') -> l = l'.
Proof.
  intros Hl. revert l'.
  induction Hl as [| a l Hs IH Ha]; intros l' Hl' Hin.
  - destruct l' as [| b l']; [reflexivity |].
    destruct (proj2 (Hin b) (or_introl eq_refl)).
  - destruct Hl' as [| b l' Hs' Hb].
    { destruct (proj1 (Hin a) (or_introl eq_refl)). }
    rewrite Forall_forall in Ha, Hb.
    assert (E : a = b).
    { destruct (proj1 (Hin a) (or_introl eq_refl)) as [E | Hal']; [auto |].
      destruct (proj2 (Hin b) (or_introl eq_refl)) as [E | Hbl]; [auto |].
      specialize (Ha _ Hbl). specialize (Hb _ Hal'). lia. }
    subst b. f_equal. apply IH; [assumption |].
    intros c. split; intros Hc.
    + destruct (proj1 (Hin c) (or_intror Hc)) as [E | H]; [| assumption].
      specialize (Ha _ Hc). lia.
    + destruct (proj2 (Hin c) (or_intror Hc)) as [E | H]; [| assumption].
      specialize (Hb _ Hc). lia.
Qed.

Lemma np_unique_Permutation (z z' : list Z) :
  Permutation z z' -> np_unique z = np_unique z'.
Proof.
  intros HP. apply sorted_same_elements; try apply np_unique_sorted.
  intros a. rewrite !np_unique_In.
  split; apply Permutation_in; [assumption | now apply Permutation_sym].
Qed.

Lemma list_count_Permutation (l l' : list Z) (v : Z) :
  Permutation l l' -> list_count l v = list_count l' v.
Proof.
  intros HP. unfold list_count. f_equal.
  now apply (Permutation_count_occ Z.eq_dec).
Qed.

Lemma mapM_ext {A B : Type} (f g : A -> py B) (l : list A) :
  (forall a, f a = g a) -> mapM f l = mapM g l.
Proof.
  intros H. induction l as [| a l IH]; simpl; [reflexivity |].
  now rewrite H, IH.
Qed.

Section Reordering.

Context {F : Type} {PF : PyFloat F}.

(** X7.  [chisq_1] and [chisq_2] do not depend on the order of the
    elements within the samples, in any arithmetic and to the last bit: the
    terms are always added in the increasing order of the distinct
    values. *)
Theorem chisq_sorted_order_invariant (x x' y y' : list Z) :
  Permutation x x' -> Permutation y y' ->
  chisq_1 x y = chisq_1 x' y' /\ chisq_2 x y = chisq_2 x' y'.
Proof.
  intros Hx Hy.
  assert (Hz : Permutation (x ++ y) (x' ++ y')) by now apply Permutation_app.
  pose proof (np_unique_Permutation _ _ Hz) as Hu.
  pose proof (Permutation_length Hx) as Lx.
  pose proof (Permutation_length Hy) as Ly.
  split.
  - unfold chisq_1, chisq_1_E_k. rewrite <- Hu, <- Lx, <- Ly.
    rewrite (mapM_ext _
               (fun i => py_div (of_int (list_count (x' ++ y') i))
                           (of_int (Z.of_nat (length y) + Z.of_nat (length x)))))
      by (intros a; now rewrite (list_count_Permutation _ _ a Hz)).
    rewrite (map_ext (fun k => list_count x k) (fun k => list_count x' k))
      by (intros a; now apply list_count_Permutation).
    reflexivity.
  - unfold chisq_2, np_unique_counts. rewrite <- Hu, <- Lx, <- Ly.
    rewrite (map_ext (list_count (x ++ y)) (list_count (x' ++ y')))
      by (intros a; now apply list_count_Permutation).
    rewrite (map_ext (fun k => list_count x k) (fun k => list_count x' k))
      by (intros a; now apply list_count_Permutation).
    reflexivity.
Qed.

End Reordering.

Lemma chisq_sorted_order_invariant_witness :
  chisq_1 (F := float) [7; 7; 1; 3; 2] [2; 2; 2; 5; 6; 1]
  = chisq_1 (F := float) (rev [7; 7; 1; 3; 2]) (rev [2; 2; 2; 5; 6; 1]) /\
  chisq_2 (F := float) [7; 7; 1; 3; 2] [2; 2; 2; 5; 6; 1]
  = chisq_2 (F := float) (rev [7; 7; 1; 3; 2]) (rev [2; 2; 2; 5; 6; 1]).
Proof.
  apply (chisq_sorted_order_invariant (F := float)); apply Permutation_rev.
Defined.

(** *** The statistic in exact arithmetic *)

Lemma py_div_zero (a b : Q) :
  (b == 0)%Q -> py_div a b = Raise ZeroDivisionError.
Proof.
  intros H. unfold py_div. simpl.
  destruct (Qeq_bool b (inject_Z 0)) eqn:E; [reflexivity |].
  apply Qeq_bool_neq in E. now elim E.
Qed.

Lemma qsum_nonneg {A : Type} (f : A -> Q) (l : list A) :
  (forall a, In a l -> (0 <= f a)%Q) -> (0 <= qsum (map f l))%Q.
Proof.
  induction l as [| a l IH]; simpl; intros H; [lra |].
  pose proof (H a (or_introl eq_refl)).
  assert (0 <= qsum (map f l))%Q by (apply IH; intros; apply H; now right).
  lra.
Qed.

Lemma qsum_zero_iff {A : Type} (f : A -> Q) (l : list A) :
  (forall a, In a l -> (0 <= f a)%Q) ->
  (qsum (map f l) == 0)%Q <-> (forall a, In a l -> (f a == 0)%Q).
Proof.
  induction l as [| a l IH]; simpl; intros H.
  - split; [intros _ b [] | reflexivity].
  - pose proof (H a (or_introl eq_refl)) as Ha.
    assert (Hl : forall b, In b l -> (0 <= f b)%Q)
      by (intros; apply H; now right).
    pose proof (qsum_nonneg f l Hl) as Hs.
    specialize (IH Hl). split.
    + intros E b [<- | Hb]; [lra |]. apply IH; [lra | assumption].
    + intros E. rewrite (E a) by now left.
      rewrite (proj2 IH) by (intros; apply E; now right). lra.
Qed.

Lemma sq_nonneg (d : Q) : (0 <= d * d)%Q.
Proof.
  destruct (Qlt_le_dec d 0) as [H | H].
  - setoid_replace (d * d)%Q with ((- d) * (- d))%Q by ring.
    apply Qmult_le_0_compat; lra.
  - apply Qmult_le_0_compat; assumption.
Qed.

Lemma term_nonneg (x : list Z) (e : Q) (v : Z) :
  (0 < e)%Q -> (0 <= term x e v)%Q.
Proof.
  intros He. unfold term. apply Qle_shift_div_l; [assumption |].
  rewrite Qmult_0_l. apply sq_nonneg.
Qed.

Lemma term_zero_iff (x : list Z) (e : Q) (v : Z) :
  (0 < e)%Q -> (term x e v == 0 <-> inject_Z (list_count x v) == e)%Q.
Proof.
  intros He. unfold term. set (o := inject_Z (list_count x v)). split.
  - intros E.
    assert (E' : ((o - e) * (o - e) == 0)%Q).
    { assert (X : ((o - e) * (o - e) / e * e == (o - e) * (o - e))%Q)
        by (field; lra).
      rewrite E in X. lra. }
    apply Qmult_integral in E'. lra.
  - intros E. rewrite E. unfold Qdiv. ring.
Qed.

Lemma list_count_app (x y : list Z) (v : Z) :
  list_count (x ++ y) v = list_count x v + list_count y v.
Proof. unfold list_count. rewrite count_occ_app. lia. Qed.

Lemma list_count_nonneg (l : list Z) (v : Z) : 0 <= list_count l v.
Proof. unfold list_count. lia. Qed.

Lemma list_count_not_In (l : list Z) (v : Z) : ~ In v l -> list_count l v = 0.
Proof.
  intros H. unfold list_count.
  apply (count_occ_not_In Z.eq_dec) in H. lia.
Qed.

(** The expected count of a value equals its observed count exactly when
    the value takes the same share of both samples. *)
Lemma expected_3_observed (x y : list Z) (v : Z) :
  x <> [] ->
  (inject_Z (list_count x v) == expected_3 x y v)%Q <->
  list_count x v * Z.of_nat (length y) = list_count y v * Z.of_nat (length x).
Proof.
  intros Hx. unfold expected_3. rewrite list_count_app.
  set (cx := list_count x v). set (cy := list_count y v).
  set (n := Z.of_nat (length x)). set (m := Z.of_nat (length y)).
  assert (Hn : 0 < n) by (subst n; destruct x; [congruence | simpl; lia]).
  assert (HN : (0 < inject_Z (n + m))%Q) by (apply inject_Z_pos; lia).
  assert (E : (inject_Z (cx + cy) / inject_Z (n + m) * inject_Z n
               * inject_Z (n + m)
               == inject_Z ((cx + cy) * n))%Q).
  { rewrite inject_Z_mult. field. lra. }
  split.
  - intros H.
    assert (E3 : (inject_Z (cx * (n + m)) == inject_Z ((cx + cy) * n))%Q)
      by (rewrite (inject_Z_mult cx), H; exact E).
    apply (proj1 (inject_Z_injective _ _)) in E3.
    rewrite Z.mul_add_distr_l, Z.mul_add_distr_r in E3. lia.
  - intros H.
    assert (E2 : (inject_Z cx * inject_Z (n + m) == inject_Z ((cx + cy) * n))%Q).
    { rewrite <- (inject_Z_mult cx). apply (proj2 (inject_Z_injective _ _)).
      rewrite Z.mul_add_distr_l, Z.mul_add_distr_r. lia. }
    rewrite <- E in E2.
    apply Qmult_inj_r in E2; [assumption | lra].
Qed.

(** The three values on a non-empty first sample, as one sum. *)
Lemma chisq_values (x y : list Z) :
  x <> [] ->
  exists v1 v3,
    chisq_1 (F := Q) x y = Return v1 /\
    chisq_3 (F := Q) x y = Return v3 /\
    (v1 == qsum (map (fun v => term x (expected_3 x y v) v)
                   (np_unique (x ++ y))))%Q /\
    (chisq_2 x y == qsum (map (fun v => term x (expected_3 x y v) v)
                            (np_unique (x ++ y))))%Q /\
    (v3 == qsum (map (fun v => term x (expected_3 x y v) v)
                   (np_unique (x ++ y))))%Q.
Proof.
  intros Hx.
  assert (Hz : x ++ y <> []) by (destruct x; [congruence | discriminate]).
  destruct (first_occurrences_spec _ Hz) as (u & Hu & _ & _).
  do 2 eexists.
  split; [apply (chisq_1_exact x y Hx) |].
  split; [apply (chisq_3_exact x y Hx u Hu) |].
  rewrite (chisq_2_exact x y). unfold py_sum. rewrite !fold_left_Qplus.
  change (of_int (F := Q) 0) with 0%Q.
  split; [| split].
  - rewrite Qplus_0_l. apply qsum_map_ext. intros v Hv.
    rewrite np_unique_In in Hv. now apply term_agree.
  - apply Qplus_0_l.
  - rewrite Qplus_0_l.
    apply qsum_map_Permutation, Permutation_sym, unique_orders_agree, Hu.
Qed.

Lemma chisq_3_empty_sample (y : list Z) :
  y <> [] -> chisq_3 (F := Q) [] y = Raise ZeroDivisionError.
Proof.
  intros Hy.
  destruct (first_occurrences_spec y Hy) as (u & Hu & _ & Hin).
  unfold chisq_3, chisq_3_E_k. simpl app. simpl length. rewrite Hu.
  simpl bind.
  rewrite <- (map_id u) at 1.
  rewrite (mapM_map_Return _ (fun i => i)
             (fun i => (inject_Z (list_count y i)
                        / inject_Z (Z.of_nat 0 + Z.of_nat (length y)))%Q)).
  - simpl bind. rewrite map_map, combine_map_map.
    destruct u as [| v u].
    + destruct y as [| a y]; [congruence |].
      destruct (proj2 (Hin a) (or_introl eq_refl)).
    + cbn [map accumulate]. rewrite py_div_zero; [reflexivity |].
      change (inject_Z (Z.of_nat 0)) with 0%Q. simpl. ring.
  - intros a _. apply py_div_nonzero.
    apply Qnot_eq_sym, Qlt_not_eq, inject_Z_pos.
    destruct y; [congruence | simpl; lia].
Qed.

Lemma chisq_2_empty_sample (y : list Z) : (chisq_2 (F := Q) [] y == 0)%Q.
Proof.
  rewrite (chisq_2_exact [] y). unfold py_sum. rewrite fold_left_Qplus.
  change (of_int (F := Q) 0) with 0%Q. rewrite Qplus_0_l.
  apply qsum_zero_iff.
  - intros v _. unfold term, expected_3. simpl length.
    change (inject_Z (Z.of_nat 0)) with 0%Q.
    change (inject_Z (list_count [] v)) with 0%Q.
    rewrite Qmult_0_r. unfold Qdiv. simpl. lra.
  - intros v _. unfold term, expected_3. simpl length.
    change (inject_Z (Z.of_nat 0)) with 0%Q.
    change (inject_Z (list_count [] v)) with 0%Q.
    rewrite Qmult_0_r. unfold Qdiv. simpl. ring.
Qed.

Lemma chisq_sum_nonneg (x y : list Z) :
  x <> [] ->
  (0 <= qsum (map (fun v => term x (expected_3 x y v) v)
            (np_unique (x ++ y))))%Q.
Proof.
  intros Hx. apply qsum_nonneg. intros v Hv. rewrite np_unique_In in Hv.
  apply term_nonneg. now apply expected_3_pos.
Qed.

Lemma chisq_3_Return_nonempty (x y : list Z) (v : Q) :
  chisq_3 x y = Return v -> x <> [].
Proof.
  intros H ->. destruct y as [| a y]; [discriminate H |].
  rewrite chisq_3_empty_sample in H; discriminate.
Qed.

(** X11.  An empty first sample, in exact arithmetic.  Every expected count
    is zero: against a non-empty [y], [chisq_1] and [chisq_3] stop at their
    first division with [ZeroDivisionError]; against an empty [y],
    [chisq_1] returns zero and [chisq_3] fails on [z[0]] with [IndexError].
    [chisq_2] returns zero in both cases, its terms being the [0/0] that
    [np.nansum] leaves out. *)
Theorem empty_first_sample (y : list Z) :
  (y <> [] ->
   chisq_1 (F := Q) [] y = Raise ZeroDivisionError /\
   chisq_3 (F := Q) [] y = Raise ZeroDivisionError) /\
  (y = [] ->
   chisq_1 (F := Q) [] y = Return 0%Q /\
   chisq_3 (F := Q) [] y = Raise IndexError) /\
  (chisq_2 (F := Q) [] y == 0)%Q.
Proof.
  split; [| split].
  - intros Hy. split;
      [now apply chisq_1_empty_sample | now apply chisq_3_empty_sample].
  - intros ->. split; reflexivity.
  - apply chisq_2_empty_sample.
Qed.

Lemma empty_first_sample_witness :
  chisq_1 (F := Q) [] fixtest_y = Raise ZeroDivisionError /\
  chisq_3 (F := Q) [] fixtest_y = Raise ZeroDivisionError /\
  chisq_1 (F := Q) [] [] = Return 0%Q /\
  chisq_3 (F := Q) [] [] = Raise IndexError.
Proof.
  destruct (empty_first_sample fixtest_y) as (H1 & _ & _).
  destruct (empty_first_sample []) as (_ & H2 & _).
  destruct (H1 ltac:(discriminate)) as [A B].
  destruct (H2 eq_refl) as [C D].
  repeat split; assumption.
Defined.

(** X9.  In exact arithmetic the statistic is never negative: every value
    that [chisq_1], [chisq_2] or [chisq_3] returns is at least zero. *)
Theorem chisq_nonnegative (x y : list Z) :
  (forall v, chisq_1 (F := Q) x y = Return v -> (0 <= v)%Q) /\
  (0 <= chisq_2 (F := Q) x y)%Q /\
  (forall v, chisq_3 (F := Q) x y = Return v -> (0 <= v)%Q).
Proof.
  destruct x as [| a x].
  - split; [| split].
    + intros v H. destruct y as [| b y].
      * vm_compute in H. inversion H. apply Qle_refl.
      * rewrite chisq_1_empty_sample in H; discriminate.
    + rewrite chisq_2_empty_sample. lra.
    + intros v H. now apply chisq_3_Return_nonempty in H.
  - assert (Hx : a :: x <> []) by discriminate.
    destruct (chisq_values (a :: x) y Hx) as (v1 & v3 & H1 & H3 & E1 & E2 & E3).
    pose proof (chisq_sum_nonneg (a :: x) y Hx) as Hs.
    split; [| split].
    + intros v H. rewrite H1 in H. inversion H; subst. now rewrite E1.
    + now rewrite E2.
    + intros v H. rewrite H3 in H. inversion H; subst. now rewrite E3.
Qed.

Lemma chisq_nonnegative_witness :
  exists v1 v3,
    chisq_1 (F := Q) fixtest_x fixtest_y = Return v1 /\
    chisq_3 (F := Q) fixtest_x fixtest_y = Return v3 /\
    (0 <= v1)%Q /\ (0 <= v3)%Q.
Proof.
  do 2 eexists.
  split; [vm_compute; reflexivity |].
  split; [vm_compute; reflexivity |].
  destruct (chisq_nonnegative fixtest_x fixtest_y) as (H1 & _ & H3).
  split; [apply H1 | apply H3]; vm_compute; reflexivity.
Defined.

Lemma chisq_sum_zero_iff (x y : list Z) :
  x <> [] ->
  (qsum (map (fun v => term x (expected_3 x y v) v) (np_unique (x ++ y)))
   == 0)%Q <-> same_frequencies x y.
Proof.
  intros Hx.
  rewrite qsum_zero_iff.
  2:{ intros v Hv. rewrite np_unique_In in Hv.
      apply term_nonneg. now apply expected_3_pos. }
  unfold same_frequencies. split.
  - intros H v. destruct (in_dec Z.eq_dec v (x ++ y)) as [Hv | Hv].
    + apply (expected_3_observed x y v Hx).
      apply term_zero_iff; [now apply expected_3_pos |].
      apply H. now rewrite np_unique_In.
    + rewrite in_app_iff in Hv.
      rewrite (list_count_not_In x v), (list_count_not_In y v) by tauto.
      reflexivity.
  - intros H v Hv. rewrite np_unique_In in Hv.
    apply term_zero_iff; [now apply expected_3_pos |].
    apply (expected_3_observed x y v Hx). apply H.
Qed.

(** X10.  In exact arithmetic, for a non-empty first sample, the statistic
    is zero exactly when the two samples have the same relative
    frequencies: every value [v] satisfies
    [x.count(v) * len(y) = y.count(v) * len(x)]. *)
Theorem zero_iff_same_frequencies (x y : list Z) :
  x <> [] ->
  (forall v, chisq_1 (F := Q) x y = Return v ->
             (v == 0)%Q <-> same_frequencies x y) /\
  ((chisq_2 (F := Q) x y == 0)%Q <-> same_frequencies x y) /\
  (forall v, chisq_3 (F := Q) x y = Return v ->
             (v == 0)%Q <-> same_frequencies x y).
Proof.
  intros Hx.
  destruct (chisq_values x y Hx) as (v1 & v3 & H1 & H3 & E1 & E2 & E3).
  pose proof (chisq_sum_zero_iff x y Hx) as Hs.
  split; [| split].
  - intros v H. rewrite H1 in H. inversion H; subst. now rewrite E1.
  - now rewrite E2.
  - intros v H. rewrite H3 in H. inversion H; subst. now rewrite E3.
Qed.

Lemma zero_iff_same_frequencies_witness :
  same_frequencies [1; 2; 2] [2; 1; 2; 2; 2; 1] /\
  ~ same_frequencies fixtest_x fixtest_y.
Proof.
  destruct (zero_iff_same_frequencies [1; 2; 2] [2; 1; 2; 2; 2; 1])
    as (_ & H & _); [discriminate |].
  destruct (zero_iff_same_frequencies fixtest_x fixtest_y)
    as (_ & H' & _); [discriminate |].
  split.
  - apply H. vm_compute. reflexivity.
  - intros S. apply H' in S. vm_compute in S. discriminate.
Defined.

(** X8.  In exact arithmetic [chisq_3] does not depend on the order of the
    elements within the samples either: reordering changes the order in
    which it meets the distinct values, and so the order of its sum, but not
    the value. *)
Theorem chisq_3_order_invariant (x x' y y' : list Z) (v v' : Q) :
  Permutation x x' -> Permutation y y' ->
  chisq_3 (F := Q) x y = Return v ->
  chisq_3 (F := Q) x' y' = Return v' ->
  (v == v')%Q.
Proof.
  intros Px Py H H'.
  pose proof (chisq_3_Return_nonempty _ _ _ H) as Hx.
  pose proof (chisq_3_Return_nonempty _ _ _ H') as Hx'.
  destruct (chisq_values x y Hx) as (_ & w & _ & Hw & _ & _ & E).
  destruct (chisq_values x' y' Hx') as (_ & w' & _ & Hw' & _ & _ & E').
  rewrite Hw in H. inversion H; subst w.
  rewrite Hw' in H'. inversion H'; subst w'.
  rewrite E, E'.
  rewrite (np_unique_Permutation (x ++ y) (x' ++ y'))
    by now apply Permutation_app.
  apply qsum_map_ext. intros a _.
  unfold term, expected_3.
  rewrite (list_count_Permutation x x' a Px).
  rewrite (list_count_Permutation (x ++ y) (x' ++ y') a)
    by now apply Permutation_app.
  rewrite (Permutation_length Px), (Permutation_length Py).
  reflexivity.
Qed.

Lemma chisq_3_order_invariant_witness :
  exists v v',
    chisq_3 (F := Q) [7; 7; 1; 3; 2] [2; 2; 2; 5; 6; 1] = Return v /\
    chisq_3 (F := Q) (rev [7; 7; 1; 3; 2]) (rev [2; 2; 2; 5; 6; 1])
    = Return v' /\
    (v == 13 # 4)%Q /\ (v == v')%Q.
Proof.
  do 2 eexists.
  split; [vm_compute; reflexivity |].
  split; [vm_compute; reflexivity |].
  split; [vm_compute; reflexivity |].
  apply (chisq_3_order_invariant [7; 7; 1; 3; 2] (rev [7; 7; 1; 3; 2])
           [2; 2; 2; 5; 6; 1] (rev [2; 2; 2; 5; 6; 1]));
    try apply Permutation_rev; vm_compute; reflexivity.
Defined.

End ChiSqMore.

